(** * APPLES: the directive-based plugin load-order engine

    A shallow embedding of [src/__init__.py] (APPLES 0.2.0): manifest
    normalisation and registration, service-name resolution, the four
    load-directive handlers, single-plugin loading and the scheduler
    loop of [_load_plugins], followed by the properties proved of them.

    Python dictionaries keep insertion order and the scheduler iterates
    over them, so they are modelled as association lists.  The code
    mutates the registry entries in place; here the registry is threaded
    through a state-and-exception monad and an entry is addressed by its
    key, a directive by its position in its owner's directive list. *)

From Stdlib Require Import List String Ascii Bool Arith Lia.
Import ListNotations.
Open Scope string_scope.
Open Scope list_scope.


(* ================================================================= *)
(** ** Ordered dictionaries *)

Definition dict (V : Type) := list (string * V).

Definition keys {V} (d : dict V) : list string := map fst d.
Definition values {V} (d : dict V) : list V := map snd d.

(** [d.get(k)] *)
Fixpoint dict_get {V} (k : string) (d : dict V) : option V :=
  match d with
  | [] => None
  | (k', v) :: rest => if String.eqb k' k then Some v else dict_get k rest
  end.

(** [d[k] = v]: an existing key keeps its position, a new one goes last. *)
Fixpoint dict_set {V} (k : string) (v : V) (d : dict V) : dict V :=
  match d with
  | [] => [(k, v)]
  | (k', v') :: rest =>
      if String.eqb k' k then (k', v) :: rest else (k', v') :: dict_set k v rest
  end.

(** In-place mutation of the value stored under [k] (nothing happens when
    the key is absent; every use below follows a successful lookup). *)
Definition dict_adjust {V} (f : V -> V) (k : string) (d : dict V) : dict V :=
  map (fun kv => if String.eqb (fst kv) k then (fst kv, f (snd kv)) else kv) d.

(** In-place mutation of the [i]-th element of a list. *)
Fixpoint list_adjust {X} (f : X -> X) (i : nat) (l : list X) {struct l}
  : list X :=
  match l, i with
  | [], _ => []
  | x :: rest, 0 => f x :: rest
  | x :: rest, S j => x :: list_adjust f j rest
  end.

(* ================================================================= *)
(** ** Data model *)

(** One element of a manifest's ["load-directives"] list: a JSON object
    with the keys ["directive"] and ["module"], and for [run-after-load]
    also ["method"]; ["executed"] is added by the handler itself. *)
Record directive := mkDirective {
  d_directive : string;
  d_module : string;
  d_method : option string;
  d_executed : option bool
}.

(** A manifest as read from an [.apm] file. *)
Record manifest := mkManifest {
  m_format : string;
  m_name : string;
  m_human_name : option string;
  m_service : option string;
  m_requirements : option (list string);
  m_load_directives : option (list directive);
  m_files : option (list string)
}.

(** A registry entry: the normalised manifest and the two run-time flags
    ["loaded"] and ["can-load"]. *)
Record plugin_entry := mkEntry {
  name : string;
  human_name : string;
  service : option string;
  requirements : list string;
  load_directives : list directive;
  files : list string;
  loaded : bool;
  can_load : bool
}.

Definition set_loaded (b : bool) (e : plugin_entry) : plugin_entry :=
  mkEntry (name e) (human_name e) (service e) (requirements e)
          (load_directives e) (files e) b (can_load e).

Definition set_can_load (b : bool) (e : plugin_entry) : plugin_entry :=
  mkEntry (name e) (human_name e) (service e) (requirements e)
          (load_directives e) (files e) (loaded e) b.

Definition set_load_directives (ds : list directive) (e : plugin_entry)
  : plugin_entry :=
  mkEntry (name e) (human_name e) (service e) (requirements e)
          ds (files e) (loaded e) (can_load e).

Definition set_executed (b : bool) (d : directive) : directive :=
  mkDirective (d_directive d) (d_module d) (d_method d) (Some b).

(** [directive.setdefault("executed", False)] *)
Definition setdefault_executed (d : directive) : directive :=
  match d_executed d with
  | Some _ => d
  | None => set_executed false d
  end.

Definition registry := dict plugin_entry.

(** The module object that [importlib.import_module] returns for a plugin. *)
Inductive module_handle := PluginModule (plugin_name : string).

(** What an attribute of the [plugins] package is bound to: the
    dictionary that the package's [__init__] creates, or the module of a
    plugin.  Importing [.plugins.NAME] binds the attribute [NAME] of the
    package to the imported module, so a plugin that has the name of one
    of the package's dictionaries takes its place. *)
Inductive attribute (V : Type) :=
| Dict (d : dict V)
| Submodule (m : module_handle).
Arguments Dict {V} d.
Arguments Submodule {V} m.

(** The [plugins] package: its attributes [plugins], [services] and
    [plugin_data]. *)
Record plugins_module := mkPlugins {
  plugins : attribute module_handle;
  services : attribute (list module_handle);
  plugin_data_copy : attribute plugin_entry
}.

Inductive exn :=
| KeyError (key : string)
| ApplesDirectiveException (msg : string)
| ImportError (plugin_name : string)
| CallError (plugin_name method_name : string)
| TypeError (msg : string)
| AttributeError (attr : string).

Definition DeniedPlugin : exn := ApplesDirectiveException "Denied plugin".
Definition DirectiveDeadlock : exn :=
  ApplesDirectiveException
    "Plugins are being blocked from loading (Probably by directives).".

(** What the run does to the outside world, in order: the start of a pass
    of the scheduler loop, a call of [importlib.import_module] for a
    plugin, and the call of a [run-after-load] method, tagged with the
    position of the directive object that asked for it. *)
Inductive event :=
| EvCycle
| EvImport (plugin_name : string)
| EvCall (plugin_name : string) (idx : nat) (method_name : string).

Record state := mkState {
  plugin_data : registry;
  plugins_mod : plugins_module;
  trace : list event
}.

(* ================================================================= *)
(** ** State and exception monad *)

Inductive result (A : Type) :=
| Ok (a : A)
| Raised (e : exn).
Arguments Ok {A} a.
Arguments Raised {A} e.

Definition M (A : Type) := state -> result A * state.

Definition ret {A} (a : A) : M A := fun st => (Ok a, st).
Definition raise {A} (e : exn) : M A := fun st => (Raised e, st).
Definition bind {A B} (m : M A) (k : A -> M B) : M B :=
  fun st =>
    match m st with
    | (Ok a, st') => k a st'
    | (Raised e, st') => (Raised e, st')
    end.

Notation "x <- m ;; k" := (bind m (fun x => k))
  (at level 61, m at next level, right associativity).
Notation "m ;; k" := (bind m (fun _ => k))
  (at level 61, right associativity).

Definition set_plugin_data (pd : registry) (st : state) : state :=
  mkState pd (plugins_mod st) (trace st).
Definition set_plugins_mod (p : plugins_module) (st : state) : state :=
  mkState (plugin_data st) p (trace st).

Definition emit (e : event) : M unit :=
  fun st => (Ok tt, mkState (plugin_data st) (plugins_mod st) (trace st ++ [e])).

(** [plugin_data[k]] *)
Definition getitem (k : string) : M plugin_entry :=
  fun st =>
    match dict_get k (plugin_data st) with
    | Some e => (Ok e, st)
    | None => (Raised (KeyError k), st)
    end.

(** Mutation of the entry object stored under [k]. *)
Definition modify_entry (f : plugin_entry -> plugin_entry) (k : string) : M unit :=
  fun st => (Ok tt, set_plugin_data (dict_adjust f k (plugin_data st)) st).

(** Mutation of the directive object at position [idx] of plugin [k]. *)
Definition modify_directive (f : directive -> directive) (k : string) (idx : nat)
  : M unit :=
  modify_entry
    (fun e => set_load_directives (list_adjust f idx (load_directives e)) e) k.

(* ================================================================= *)
(** ** Manifest normalisation and registration *)

Definition default {A} (o : option A) (a : A) : A :=
  match o with Some x => x | None => a end.

(** [_parse_apm_json_0_1_0]: defaults for ["human-name"], ["requirements"],
    ["load-directives"] and ["files"], overlaid with the manifest's own
    keys.  No other key receives a default; ["loaded"] and ["can-load"]
    are only added at registration and are [false] until then. *)
Definition _parse_apm_json_0_1_0 (plugin_manifest : manifest) : plugin_entry :=
  let plugin_human_name :=
    match m_human_name plugin_manifest with
    | Some h => h
    | None => m_name plugin_manifest
    end in
  mkEntry (m_name plugin_manifest)
          plugin_human_name
          (m_service plugin_manifest)
          (default (m_requirements plugin_manifest) [])
          (default (m_load_directives plugin_manifest) [])
          (default (m_files plugin_manifest) [])
          false false.

(** [_apm_json_handlers]: dispatch on the ["format"] string. *)
Definition _apm_json_handlers (format : string)
  : option (manifest -> plugin_entry) :=
  if String.eqb format "0.1.0" then Some _parse_apm_json_0_1_0 else None.

(** The parsing step of [_apm_handler]. *)
Definition _apm_handler (plugin_manifest : manifest) : result plugin_entry :=
  match _apm_json_handlers (m_format plugin_manifest) with
  | Some handler => Ok (handler plugin_manifest)
  | None => Raised (KeyError (m_format plugin_manifest))
  end.

(** The registration loop of [_load_plugin_manifests]. *)
Fixpoint register (manifests : list plugin_entry) (plugin_data : registry)
  : registry :=
  match manifests with
  | [] => plugin_data
  | manifest :: rest =>
      register rest
        (dict_set (name manifest)
                  (set_can_load false (set_loaded false manifest))
                  plugin_data)
  end.

Fixpoint parse_all (files : list manifest) : result (list plugin_entry) :=
  match files with
  | [] => Ok []
  | f :: rest =>
      match _apm_handler f with
      | Raised e => Raised e
      | Ok m =>
          match parse_all rest with
          | Raised e => Raised e
          | Ok ms => Ok (m :: ms)
          end
      end
  end.

Definition _load_plugin_manifests (files : list manifest) : result registry :=
  match parse_all files with
  | Raised e => Raised e
  | Ok manifests => Ok (register manifests [])
  end.

(* ================================================================= *)
(** ** Service resolver *)

(** What a Python generator does when iterated: it yields a name and
    goes on, raises, or stops. *)
Inductive gen :=
| Stop
| Raise (e : exn)
| Yield (plugin_name : string) (rest : gen).

(** The wildcard branch of [_resolve_plugin_name]:
    [plugin_entry["service"]] is read for every entry in turn and raises
    [KeyError] on an entry that has no such key. *)
Fixpoint resolve_service (service_name : string) (entries : list plugin_entry)
  : gen :=
  match entries with
  | [] => Stop
  | plugin_entry :: rest =>
      match service plugin_entry with
      | None => Raise (KeyError "service")
      | Some s =>
          if String.eqb s service_name
          then Yield (name plugin_entry) (resolve_service service_name rest)
          else resolve_service service_name rest
      end
  end.

(** [_resolve_plugin_name].  The generator only reads the keys ["service"]
    and ["name"], which no loop body consuming it writes, so it is
    unfolded against the registry at the point of the call. *)
Definition _resolve_plugin_name (plugin_name : string) (plugin_data : registry)
  : gen :=
  match plugin_name with
  | String "$"%char rest => resolve_service rest (values plugin_data)
  | _ => Yield plugin_name Stop
  end.

(* ================================================================= *)
(** ** The external loader

    [importlib.import_module] and the plugins' own methods are outside
    the program.  They are taken as parameters: whether importing a
    plugin succeeds, and whether calling a method of a plugin returns
    normally. *)

Section Loader.

Variable import_ok : string -> bool.
Variable call_ok : string -> string -> bool.

(** The binding of an imported module to its name in the package. *)
Definition bind_submodule (plugin_name : string) (m : module_handle)
  (p : plugins_module) : plugins_module :=
  mkPlugins
    (if String.eqb plugin_name "plugins" then Submodule m else plugins p)
    (if String.eqb plugin_name "services" then Submodule m else services p)
    (if String.eqb plugin_name "plugin_data" then Submodule m
     else plugin_data_copy p).

(** [importlib.import_module(f".plugins.{plugin_name}", ...)] *)
Definition import_module (plugin_name : string) : M module_handle :=
  emit (EvImport plugin_name) ;;
  if import_ok plugin_name then
    fun st =>
      (Ok (PluginModule plugin_name),
       set_plugins_mod
         (bind_submodule plugin_name (PluginModule plugin_name) (plugins_mod st))
         st)
  else raise (ImportError plugin_name).

(** [getattr(plugins.plugins[plugin_name], method_name)()]; a module
    object cannot be subscripted. *)
Definition call_method (plugin_name : string) (idx : nat) (method_name : string)
  : M unit :=
  fun st =>
    match plugins (plugins_mod st) with
    | Submodule _ =>
        (Raised (TypeError "'module' object is not subscriptable"), st)
    | Dict d =>
        match dict_get plugin_name d with
        | None => (Raised (KeyError plugin_name), st)
        | Some _ =>
            (emit (EvCall plugin_name idx method_name) ;;
             if call_ok plugin_name method_name then ret tt
             else raise (CallError plugin_name method_name)) st
        end
    end.

(* ================================================================= *)
(** ** Directive evaluator

    A handler receives the directive and the declaring entry.  Of the
    declaring entry it reads ["name"] and ["loaded"], which no handler
    writes, so the entry is passed by value; its writes go to the
    registry under the entry's name.  [idx] is the position of the
    directive in the entry's ["load-directives"] list and stands for the
    identity of the directive object. *)

Fixpoint load_before_loop (module_names : gen) (plugin_entry : plugin_entry)
  : M unit :=
  match module_names with
  | Stop => ret tt
  | Raise e => raise e
  | Yield module_name rest =>
      _ <- getitem module_name ;;
      (if negb (loaded plugin_entry)
       then modify_entry (set_can_load false) module_name
       else ret tt) ;;
      load_before_loop rest plugin_entry
  end.

Definition _directive_load_before
  (directive : directive) (plugin_entry : plugin_entry) (idx : nat) : M unit :=
  fun st =>
    let module_names := _resolve_plugin_name (d_module directive) (plugin_data st) in
    load_before_loop module_names plugin_entry st.

Fixpoint load_after_loop (module_names : gen) (plugin_entry : plugin_entry)
  : M unit :=
  match module_names with
  | Stop => ret tt
  | Raise e => raise e
  | Yield module_name rest =>
      module_entry <- getitem module_name ;;
      (if negb (loaded module_entry)
       then modify_entry (set_can_load false) (name plugin_entry)
       else ret tt) ;;
      load_after_loop rest plugin_entry
  end.

Definition _directive_load_after
  (directive : directive) (plugin_entry : plugin_entry) (idx : nat) : M unit :=
  fun st =>
    let module_names := _resolve_plugin_name (d_module directive) (plugin_data st) in
    load_after_loop module_names plugin_entry st.

Fixpoint load_deny_loop (module_names : gen) (plugin_name : string) : M unit :=
  match module_names with
  | Stop => ret tt
  | Raise e => raise e
  | Yield module_name rest =>
      _ <- getitem module_name ;;
      if String.eqb module_name plugin_name
      then load_deny_loop rest plugin_name
      else
        fun st =>
          match dict_get module_name (plugin_data st) with
          | Some _ => (Raised DeniedPlugin, st)
          | None => load_deny_loop rest plugin_name st
          end
  end.

Definition _directive_load_deny
  (directive : directive) (plugin_entry : plugin_entry) (idx : nat) : M unit :=
  fun st =>
    let module_names := _resolve_plugin_name (d_module directive) (plugin_data st) in
    load_deny_loop module_names (name plugin_entry) st.

(** The [for] loop of [_directive_run_after_load]; [false] stands for its
    early [return]. *)
Fixpoint modules_loaded_loop (module_names : gen) : M bool :=
  match module_names with
  | Stop => ret true
  | Raise e => raise e
  | Yield module_name rest =>
      module_entry <- getitem module_name ;;
      if negb (loaded module_entry) then ret false
      else modules_loaded_loop rest
  end.

Definition _directive_run_after_load
  (directive : directive) (plugin_entry : plugin_entry) (idx : nat) : M unit :=
  let plugin_name := name plugin_entry in
  modify_directive setdefault_executed plugin_name idx ;;
  let executed := default (d_executed directive) false in
  match d_method directive with
  | None => raise (KeyError "method")
  | Some method_name =>
      if negb executed then
        fun st =>
          let module_names :=
            _resolve_plugin_name (d_module directive) (plugin_data st) in
          (all_loaded <- modules_loaded_loop module_names ;;
           if all_loaded then
             if loaded plugin_entry then
               modify_directive (set_executed true) plugin_name idx ;;
               call_method plugin_name idx method_name
             else ret tt
           else ret tt) st
      else ret tt
  end.

Definition handler := directive -> plugin_entry -> nat -> M unit.

(** The dispatch table [_load_directives]. *)
Definition _load_directives (kind : string) : option handler :=
  if String.eqb kind "load-after" then Some _directive_load_after
  else if String.eqb kind "load-before" then Some _directive_load_before
  else if String.eqb kind "load-deny" then Some _directive_load_deny
  else if String.eqb kind "run-after-load" then Some _directive_run_after_load
  else None.

Definition apply_directive
  (directive : directive) (plugin_entry : plugin_entry) (idx : nat) : M unit :=
  match _load_directives (d_directive directive) with
  | Some h => h directive plugin_entry idx
  | None => raise (KeyError (d_directive directive))
  end.

(** [for directive in plugin_entry["load-directives"]].  A directive
    object is only written by its own handler, so the list is the one
    read when the loop starts. *)
Fixpoint for_directives
  (directives : list directive) (idx : nat) (plugin_entry : plugin_entry)
  : M unit :=
  match directives with
  | [] => ret tt
  | directive :: rest =>
      apply_directive directive plugin_entry idx ;;
      for_directives rest (S idx) plugin_entry
  end.

(** [for plugin_entry in plugin_data.values()]: the set of keys is fixed
    during a run, the entry objects are read as they are when reached. *)
Fixpoint apply_loop (names : list string) : M unit :=
  match names with
  | [] => ret tt
  | k :: rest =>
      plugin_entry <- getitem k ;;
      for_directives (load_directives plugin_entry) 0 plugin_entry ;;
      apply_loop rest
  end.

(** "Apply load directives" *)
Definition apply_load_directives : M unit :=
  fun st => apply_loop (keys (plugin_data st)) st.

(* ================================================================= *)
(** ** Scheduler *)

(** [dict.setdefault(k, []).append(v)] *)
Definition setdefault_append {V} (k : string) (v : V) (d : dict (list V))
  : dict (list V) :=
  match dict_get k d with
  | Some l => dict_set k (l ++ [v]) d
  | None => dict_set k [v] d
  end.

(** [getattr(plugins, "plugins", {})[plugin_name] = plugin_module]; a
    module object does not support item assignment. *)
Definition setitem_plugins (plugin_name : string) (plugin_module : module_handle)
  : M unit :=
  fun st =>
    let p := plugins_mod st in
    match plugins p with
    | Dict d =>
        (Ok tt,
         set_plugins_mod
           (mkPlugins (Dict (dict_set plugin_name plugin_module d))
                      (services p) (plugin_data_copy p)) st)
    | Submodule _ =>
        (Raised (TypeError "'module' object does not support item assignment"),
         st)
    end.

(** [getattr(plugins, "services", {}).setdefault(plugin_service, [])
    .append(plugin_module)]; a plugin's module is taken to have no
    attribute [setdefault]. *)
Definition append_service (plugin_service : string)
  (plugin_module : module_handle) : M unit :=
  fun st =>
    let p := plugins_mod st in
    match services p with
    | Dict d =>
        (Ok tt,
         set_plugins_mod
           (mkPlugins (plugins p)
                      (Dict (setdefault_append plugin_service plugin_module d))
                      (plugin_data_copy p)) st)
    | Submodule _ => (Raised (AttributeError "setdefault"), st)
    end.

(** [getattr(plugins, "plugin_data", {})[plugin_name] =
    copy.deepcopy(plugin_entry)] *)
Definition setitem_plugin_data (plugin_name : string)
  (plugin_entry : plugin_entry) : M unit :=
  fun st =>
    let p := plugins_mod st in
    match plugin_data_copy p with
    | Dict d =>
        (Ok tt,
         set_plugins_mod
           (mkPlugins (plugins p) (services p)
                      (Dict (dict_set plugin_name plugin_entry d))) st)
    | Submodule _ =>
        (Raised (TypeError "'module' object does not support item assignment"),
         st)
    end.

Definition _load_plugin (plugin_entry : plugin_entry) : M unit :=
  let plugin_name := name plugin_entry in
  let plugin_service := name plugin_entry in
  plugin_module <- import_module plugin_name ;;
  setitem_plugins plugin_name plugin_module ;;
  append_service plugin_service plugin_module ;;
  setitem_plugin_data plugin_name plugin_entry ;;
  modify_entry (set_loaded true) plugin_name.

(** "Reset all can-load flags" *)
Definition reset_can_load : M unit :=
  fun st =>
    (Ok tt,
     set_plugin_data
       (map (fun kv => (fst kv, set_can_load true (snd kv))) (plugin_data st))
       st).

(** "Load any plugins it can"; returns [(loaded_any, loaded_all)]. *)
Fixpoint load_loop (names : list string) (loaded_any loaded_all : bool)
  : M (bool * bool) :=
  match names with
  | [] => ret (loaded_any, loaded_all)
  | k :: rest =>
      plugin_entry <- getitem k ;;
      if negb (loaded plugin_entry) then
        if can_load plugin_entry then
          _load_plugin plugin_entry ;;
          load_loop rest true false
        else load_loop rest loaded_any false
      else load_loop rest loaded_any loaded_all
  end.

Definition load_available : M (bool * bool) :=
  fun st => load_loop (keys (plugin_data st)) false true st.

(** One pass of the body of [while True], up to the two tests that
    follow it. *)
Definition cycle : M (bool * bool) :=
  emit EvCycle ;;
  reset_can_load ;;
  apply_load_directives ;;
  load_available.

Inductive outcome :=
| Finished
| Aborted (e : exn)
| Unfinished.

(** The [while True] loop with a bound on the number of passes. *)
Fixpoint load_plugins_loop (fuel : nat) (st : state) : outcome * state :=
  match fuel with
  | 0 => (Unfinished, st)
  | S fuel' =>
      match cycle st with
      | (Raised e, st') => (Aborted e, st')
      | (Ok (loaded_any, loaded_all), st') =>
          if loaded_all then (Finished, st')
          else if negb loaded_any then (Aborted DirectiveDeadlock, st')
          else load_plugins_loop fuel' st'
      end
  end.

Definition initial_state (plugin_data : registry) : state :=
  mkState plugin_data (mkPlugins (Dict []) (Dict []) (Dict [])) [].

(** [_load_plugins].  Every pass that goes on to the next one loads a
    plugin, so one pass more than there are plugins always suffices
    ([load_plugins_total] below). *)
Definition _load_plugins (plugin_data : registry) : outcome * state :=
  load_plugins_loop (S (List.length plugin_data)) (initial_state plugin_data).

(** [init], from the manifests read from the plugin directory. *)
Definition init (files : list manifest) : outcome * state :=
  match _load_plugin_manifests files with
  | Raised e => (Aborted e, initial_state [])
  | Ok plugin_data => _load_plugins plugin_data
  end.

End Loader.

(* ================================================================= *)
(** * Properties *)

(** ** Dictionaries *)

(** The dictionary of the [p]-components of the values. *)
Definition dict_map {V X} (p : V -> X) (d : dict V) : dict X :=
  map (fun kv => (fst kv, p (snd kv))) d.

Lemma keys_dict_map {V X} (p : V -> X) (d : dict V) :
  keys (dict_map p d) = keys d.
Proof.
  unfold keys, dict_map. rewrite map_map. reflexivity.
Qed.

Lemma dict_get_map {V X} (p : V -> X) (k : string) (d : dict V) :
  dict_get k (dict_map p d) = option_map p (dict_get k d).
Proof.
  induction d as [|[k' v] d IH]; simpl; [reflexivity|].
  destruct (String.eqb k' k); [reflexivity|exact IH].
Qed.

Lemma dict_map_eq_get {V X} (p : V -> X) (d d' : dict V) (k : string) :
  dict_map p d = dict_map p d' ->
  option_map p (dict_get k d) = option_map p (dict_get k d').
Proof.
  intros H. rewrite <- !dict_get_map, H. reflexivity.
Qed.

Lemma dict_map_eq_keys {V X} (p : V -> X) (d d' : dict V) :
  dict_map p d = dict_map p d' -> keys d = keys d'.
Proof.
  intros H. rewrite <- (keys_dict_map p d), H. apply keys_dict_map.
Qed.

Lemma keys_dict_adjust {V} (f : V -> V) (k : string) (d : dict V) :
  keys (dict_adjust f k d) = keys d.
Proof.
  unfold keys, dict_adjust. rewrite map_map. apply map_ext.
  intros [k' v]; simpl. destruct (String.eqb k' k); reflexivity.
Qed.

Lemma dict_get_adjust {V} (f : V -> V) (k k' : string) (d : dict V) :
  dict_get k' (dict_adjust f k d) =
  if String.eqb k k' then option_map f (dict_get k' d) else dict_get k' d.
Proof.
  induction d as [|[k0 v] d IH]; simpl.
  - destruct (String.eqb k k'); reflexivity.
  - destruct (String.eqb k0 k) eqn:E0; simpl.
    + apply String.eqb_eq in E0; subst k0.
      destruct (String.eqb k k') eqn:E; [reflexivity|exact IH].
    + destruct (String.eqb k0 k') eqn:E1; [|exact IH].
      apply String.eqb_eq in E1; subst k0.
      rewrite String.eqb_sym, E0. reflexivity.
Qed.

Lemma dict_get_adjust_same {V} (f : V -> V) (k : string) (d : dict V) :
  dict_get k (dict_adjust f k d) = option_map f (dict_get k d).
Proof. rewrite dict_get_adjust, String.eqb_refl. reflexivity. Qed.

Lemma dict_get_adjust_other {V} (f : V -> V) (k k' : string) (d : dict V) :
  k <> k' -> dict_get k' (dict_adjust f k d) = dict_get k' d.
Proof.
  intros H. rewrite dict_get_adjust.
  destruct (String.eqb k k') eqn:E; [|reflexivity].
  apply String.eqb_eq in E. contradiction.
Qed.

Lemma dict_map_adjust {V X} (p : V -> X) (f : V -> V) (k : string) (d : dict V) :
  (forall v, p (f v) = p v) ->
  dict_map p (dict_adjust f k d) = dict_map p d.
Proof.
  intros H. unfold dict_map, dict_adjust. rewrite map_map. apply map_ext.
  intros [k' v]; simpl. destruct (String.eqb k' k); simpl; [rewrite H|]; reflexivity.
Qed.

Lemma dict_get_In {V} (k : string) (v : V) (d : dict V) :
  dict_get k d = Some v -> In (k, v) d.
Proof.
  induction d as [|[k' v'] d IH]; simpl; [discriminate|].
  destruct (String.eqb k' k) eqn:E.
  - apply String.eqb_eq in E. intros [= ->]. subst. now left.
  - intros H. right. auto.
Qed.

Lemma dict_get_keys {V} (k : string) (d : dict V) :
  In k (keys d) <-> exists v, dict_get k d = Some v.
Proof.
  induction d as [|[k' v'] d IH]; simpl.
  - split; [tauto|intros [v H]; discriminate].
  - destruct (String.eqb k' k) eqn:E.
    + apply String.eqb_eq in E. split; [eauto|now left].
    + apply String.eqb_neq in E. rewrite IH. split; [|eauto].
      intros [H|H]; [contradiction|exact H].
Qed.

Lemma dict_get_None {V} (k : string) (d : dict V) :
  ~ In k (keys d) <-> dict_get k d = None.
Proof.
  rewrite dict_get_keys. destruct (dict_get k d).
  - split; [intros H; exfalso; eauto|discriminate].
  - split; [reflexivity|intros _ [v H]; discriminate].
Qed.

Lemma In_dict_get {V} (k : string) (v : V) (d : dict V) :
  NoDup (keys d) -> In (k, v) d -> dict_get k d = Some v.
Proof.
  induction d as [|[k' v'] d IH]; simpl; [tauto|].
  intros Hnd [H|H].
  - inversion H; subst. rewrite String.eqb_refl. reflexivity.
  - inversion Hnd as [|? ? Hni Hnd']; subst.
    destruct (String.eqb k' k) eqn:E.
    + apply String.eqb_eq in E; subst. exfalso. apply Hni.
      change k with (fst (k, v)). apply in_map. exact H.
    + auto.
Qed.

Lemma keys_dict_set {V} (k : string) (v : V) (d : dict V) :
  keys (dict_set k v d) = if in_dec string_dec k (keys d) then keys d else keys d ++ [k].
Proof.
  induction d as [|[k' v'] d IH]; simpl; [reflexivity|].
  destruct (String.eqb k' k) eqn:E; simpl.
  - apply String.eqb_eq in E. destruct (string_dec k' k); [reflexivity|contradiction].
  - apply String.eqb_neq in E. destruct (string_dec k' k); [contradiction|].
    rewrite IH. destruct (in_dec string_dec k (keys d)); reflexivity.
Qed.

Lemma dict_get_set {V} (k k' : string) (v : V) (d : dict V) :
  dict_get k' (dict_set k v d) = if String.eqb k k' then Some v else dict_get k' d.
Proof.
  induction d as [|[k0 v0] d IH]; simpl.
  - reflexivity.
  - destruct (String.eqb k0 k) eqn:E0; simpl.
    + apply String.eqb_eq in E0; subst k0.
      destruct (String.eqb k k'); reflexivity.
    + destruct (String.eqb k0 k') eqn:E1; [|exact IH].
      apply String.eqb_eq in E1; subst k0.
      rewrite String.eqb_sym, E0. reflexivity.
Qed.

Lemma NoDup_keys_dict_set {V} (k : string) (v : V) (d : dict V) :
  NoDup (keys d) -> NoDup (keys (dict_set k v d)).
Proof.
  intros H. rewrite keys_dict_set.
  destruct (in_dec string_dec k (keys d)) as [Hin|Hni]; [exact H|].
  apply NoDup_app; repeat split; auto.
  - constructor; [simpl; tauto|constructor].
  - intros x Hx [<-|[]]. contradiction.
Qed.

(* ================================================================= *)
(** ** Reasoning about monadic code *)

Lemma bind_inv {A B} (m : M A) (k : A -> M B) st r st' :
  bind m k st = (r, st') ->
  (exists a st1, m st = (Ok a, st1) /\ k a st1 = (r, st')) \/
  (exists e, m st = (Raised e, st') /\ r = Raised e).
Proof.
  unfold bind. destruct (m st) as [[a|e] st1]; intros H.
  - left. eauto.
  - right. inversion H; subst. eauto.
Qed.

Lemma bind_ok {A B} (m : M A) (k : A -> M B) st a st1 :
  m st = (Ok a, st1) -> bind m k st = k a st1.
Proof. unfold bind. intros ->. reflexivity. Qed.

Lemma bind_raised {A B} (m : M A) (k : A -> M B) st e st1 :
  m st = (Raised e, st1) -> bind m k st = (Raised e, st1).
Proof. unfold bind. intros ->. reflexivity. Qed.

(** [preserves R m]: every run of [m] takes a state to an [R]-related one,
    whether it returns or raises. *)
Definition preserves {A} (R : state -> state -> Prop) (m : M A) : Prop :=
  forall st r st', m st = (r, st') -> R st st'.

Section Preserves.

Variable R : state -> state -> Prop.
Hypothesis R_refl : forall st, R st st.
Hypothesis R_trans : forall st1 st2 st3, R st1 st2 -> R st2 st3 -> R st1 st3.

Lemma preserves_ret {A} (a : A) : preserves R (ret a).
Proof. intros st r st' H. inversion H; subst. apply R_refl. Qed.

Lemma preserves_raise {A} (e : exn) : preserves R (@raise A e).
Proof. intros st r st' H. inversion H; subst. apply R_refl. Qed.

Lemma preserves_bind {A B} (m : M A) (k : A -> M B) :
  preserves R m -> (forall a, preserves R (k a)) -> preserves R (bind m k).
Proof.
  intros Hm Hk st r st' H.
  destruct (bind_inv _ _ _ _ _ H) as [(a & st1 & H1 & H2)|(e & H1 & _)].
  - eapply R_trans; [eapply Hm|eapply Hk]; eauto.
  - eapply Hm; eauto.
Qed.

Lemma preserves_read {A X} (g : state -> X) (f : X -> M A) :
  (forall x, preserves R (f x)) -> preserves R (fun st => f (g st) st).
Proof. intros H st r st' E. eapply H; eauto. Qed.

Lemma preserves_getitem (k : string) : preserves R (getitem k).
Proof.
  intros st r st'. unfold getitem.
  destruct (dict_get k (plugin_data st)); intros H; inversion H; subst; apply R_refl.
Qed.

End Preserves.

(* ================================================================= *)
(** ** What a run never changes *)

(** A directive without its ["executed"] flag. *)
Definition static_d (d : directive) : string * string * option string :=
  (d_directive d, d_module d, d_method d).

(** An entry without its flags and without the ["executed"] flags of its
    directives. *)
Definition entry_shape (e : plugin_entry)
  : string * option string * list (string * string * option string) :=
  (name e, service e, map static_d (load_directives e)).

Definition shape (st : state) := dict_map entry_shape (plugin_data st).
Definition loaded_map (st : state) := dict_map loaded (plugin_data st).

Definition is_loaded (k : string) (st : state) : bool :=
  match dict_get k (plugin_data st) with
  | Some e => loaded e
  | None => false
  end.

Definition can_load_of (k : string) (st : state) : bool :=
  match dict_get k (plugin_data st) with
  | Some e => can_load e
  | None => false
  end.

Definition directive_at (k : string) (i : nat) (st : state) : option directive :=
  match dict_get k (plugin_data st) with
  | Some e => nth_error (load_directives e) i
  | None => None
  end.

(** Keys are unique and every entry is stored under its own name. *)
Definition wf (pd : registry) : Prop :=
  NoDup (keys pd) /\ forall k e, dict_get k pd = Some e -> name e = k.

Lemma shape_keys st st' : shape st' = shape st ->
  keys (plugin_data st') = keys (plugin_data st).
Proof. apply dict_map_eq_keys. Qed.

Lemma shape_get st st' k e' :
  shape st' = shape st ->
  dict_get k (plugin_data st') = Some e' ->
  exists e, dict_get k (plugin_data st) = Some e /\ entry_shape e = entry_shape e'.
Proof.
  intros Hs Hg. apply (dict_map_eq_get entry_shape _ _ k) in Hs.
  rewrite Hg in Hs. simpl in Hs.
  destruct (dict_get k (plugin_data st)) as [e|]; [|discriminate].
  exists e. split; [reflexivity|]. simpl in Hs. congruence.
Qed.

Lemma shape_wf st st' :
  shape st' = shape st -> wf (plugin_data st) -> wf (plugin_data st').
Proof.
  intros Hs [Hnd Hn]. split.
  - rewrite (shape_keys _ _ Hs). exact Hnd.
  - intros k e' Hg. destruct (shape_get _ _ _ _ Hs Hg) as (e & He & Es).
    inversion Es. rewrite <- (Hn _ _ He). congruence.
Qed.

Lemma loaded_map_is_loaded st st' k :
  loaded_map st' = loaded_map st -> is_loaded k st' = is_loaded k st.
Proof.
  intros H. apply (dict_map_eq_get loaded _ _ k) in H. unfold is_loaded.
  destruct (dict_get k (plugin_data st')), (dict_get k (plugin_data st));
    simpl in H; congruence.
Qed.

Lemma resolve_service_shape s (l l' : list plugin_entry) :
  map entry_shape l = map entry_shape l' ->
  resolve_service s l = resolve_service s l'.
Proof.
  revert l'. induction l as [|e l IH]; intros [|e' l'] H; simpl in *;
    try discriminate; [reflexivity|].
  inversion H as [[Hn Hs Hd Hl]]. rewrite Hs, Hn, (IH _ Hl). reflexivity.
Qed.

Lemma resolve_shape st st' r :
  shape st' = shape st ->
  _resolve_plugin_name r (plugin_data st') = _resolve_plugin_name r (plugin_data st).
Proof.
  intros H. unfold _resolve_plugin_name. destruct r as [|c r]; [reflexivity|].
  assert (E : map entry_shape (values (plugin_data st')) =
              map entry_shape (values (plugin_data st))).
  { unfold shape, dict_map in H. apply (f_equal (map snd)) in H.
    rewrite !map_map in H. simpl in H. unfold values. rewrite !map_map. exact H. }
  rewrite (resolve_service_shape _ _ _ E). reflexivity.
Qed.

(* ================================================================= *)
(** ** The frame of directive evaluation

    [dstep A i st st']: what evaluating directives other than the one at
    position [i] of plugin [A] can do to the state.  Nothing is loaded,
    [can-load] flags are only cleared, the directive at [(A, i)] is left
    alone and no method is called on its behalf. *)

Definition off_target (A : string) (i : nat) (ev : event) : Prop :=
  match ev with
  | EvCall k j _ => (k, j) <> (A, i)
  | _ => False
  end.

Record dstep (A : string) (i : nat) (st st' : state) : Prop := mk_dstep {
  dstep_shape : shape st' = shape st;
  dstep_loaded : loaded_map st' = loaded_map st;
  dstep_can_load : forall k, can_load_of k st' = true -> can_load_of k st = true;
  dstep_plugins : plugins_mod st' = plugins_mod st;
  dstep_target : directive_at A i st' = directive_at A i st;
  dstep_trace : exists t, trace st' = trace st ++ t /\ Forall (off_target A i) t
}.

Lemma dstep_refl A i st : dstep A i st st.
Proof.
  constructor; auto. exists []. rewrite app_nil_r. auto.
Qed.

Lemma dstep_trans A i st1 st2 st3 :
  dstep A i st1 st2 -> dstep A i st2 st3 -> dstep A i st1 st3.
Proof.
  intros [S1 L1 C1 P1 T1 (t1 & E1 & F1)] [S2 L2 C2 P2 T2 (t2 & E2 & F2)].
  constructor; try congruence; auto.
  exists (t1 ++ t2). split.
  - rewrite E2, E1, app_assoc. reflexivity.
  - apply Forall_app. auto.
Qed.

Lemma nth_error_list_adjust {X} (f : X -> X) (i j : nat) (l : list X) :
  nth_error (list_adjust f i l) j =
  if Nat.eqb i j then option_map f (nth_error l j) else nth_error l j.
Proof.
  revert i j. induction l as [|x l IH]; intros i j; simpl.
  - destruct j; simpl; destruct (Nat.eqb i _); reflexivity.
  - destruct i as [|i], j as [|j]; simpl; try reflexivity. apply IH.
Qed.

Lemma map_list_adjust {X Y} (p : X -> Y) (f : X -> X) (i : nat) (l : list X) :
  (forall x, p (f x) = p x) -> map p (list_adjust f i l) = map p l.
Proof.
  intros H. revert i. induction l as [|x l IH]; intros [|i]; simpl;
    try reflexivity; [rewrite H|rewrite IH]; reflexivity.
Qed.

Lemma dstep_set_can_load A i k :
  preserves (dstep A i) (modify_entry (set_can_load false) k).
Proof.
  intros st r st' H. unfold modify_entry in H. inversion H; subst; clear H.
  constructor; simpl.
  - apply dict_map_adjust. reflexivity.
  - apply dict_map_adjust. reflexivity.
  - intros k'. unfold can_load_of; simpl. rewrite dict_get_adjust.
    destruct (String.eqb k k'); [|auto].
    destruct (dict_get k' (plugin_data st)); simpl; [discriminate|auto].
  - reflexivity.
  - unfold directive_at; simpl. rewrite dict_get_adjust.
    destruct (String.eqb k A); [|reflexivity].
    destruct (dict_get A (plugin_data st)); reflexivity.
  - exists []. rewrite app_nil_r. auto.
Qed.

Lemma dstep_modify_directive A i f k j :
  (forall d, static_d (f d) = static_d d) ->
  (k, j) <> (A, i) ->
  preserves (dstep A i) (modify_directive f k j).
Proof.
  intros Hf Hne st r st' H. unfold modify_directive, modify_entry in H.
  inversion H; subst; clear H.
  constructor; simpl.
  - apply dict_map_adjust. intros e. unfold entry_shape; simpl.
    rewrite (map_list_adjust static_d f j _ Hf). reflexivity.
  - apply dict_map_adjust. reflexivity.
  - intros k'. unfold can_load_of; simpl. rewrite dict_get_adjust.
    destruct (String.eqb k k'); [|auto].
    destruct (dict_get k' (plugin_data st)); simpl; auto.
  - reflexivity.
  - unfold directive_at; simpl. rewrite dict_get_adjust.
    destruct (String.eqb k A) eqn:E; [|reflexivity].
    apply String.eqb_eq in E. subst k.
    destruct (dict_get A (plugin_data st)); simpl; [|reflexivity].
    rewrite nth_error_list_adjust.
    destruct (Nat.eqb j i) eqn:E; [|reflexivity].
    apply Nat.eqb_eq in E. subst j. congruence.
  - exists []. rewrite app_nil_r. auto.
Qed.

Section HandlerFrames.

Variable call_ok : string -> string -> bool.

Lemma dstep_call_method A i k j m :
  (k, j) <> (A, i) -> preserves (dstep A i) (call_method call_ok k j m).
Proof.
  intros Hne st r st' H. unfold call_method in H.
  destruct (plugins (plugins_mod st)) as [pl|sub];
    [|inversion H; subst; apply dstep_refl].
  destruct (dict_get k pl).
  - unfold bind, emit in H.
    assert (E : st' = mkState (plugin_data st) (plugins_mod st)
                               (trace st ++ [EvCall k j m])).
    { destruct (call_ok k m); inversion H; reflexivity. }
    subst st'. constructor; simpl; auto.
    exists [EvCall k j m]. split; [reflexivity|]. constructor; [exact Hne|constructor].
  - inversion H; subst. apply dstep_refl.
Qed.

Ltac frame A i :=
  repeat first
    [ apply (preserves_ret _ (dstep_refl A i))
    | apply (preserves_raise _ (dstep_refl A i))
    | apply (preserves_getitem _ (dstep_refl A i))
    | apply dstep_set_can_load
    | apply (preserves_bind _ (dstep_trans A i)); [|intro]
    | match goal with |- preserves _ (if ?b then _ else _) => destruct b end ].

Lemma dstep_load_before A i d e j :
  preserves (dstep A i) (_directive_load_before d e j).
Proof.
  unfold _directive_load_before.
  apply (preserves_read (dstep A i)
           (fun st => _resolve_plugin_name (d_module d) (plugin_data st))
           (fun g => load_before_loop g e)).
  intros g. induction g as [|x|n g IH]; simpl; frame A i. exact IH.
Qed.

Lemma dstep_load_after A i d e j :
  preserves (dstep A i) (_directive_load_after d e j).
Proof.
  unfold _directive_load_after.
  apply (preserves_read (dstep A i)
           (fun st => _resolve_plugin_name (d_module d) (plugin_data st))
           (fun g => load_after_loop g e)).
  intros g. induction g as [|x|n g IH]; simpl; frame A i. exact IH.
Qed.

Lemma dstep_load_deny A i d e j :
  preserves (dstep A i) (_directive_load_deny d e j).
Proof.
  unfold _directive_load_deny.
  apply (preserves_read (dstep A i)
           (fun st => _resolve_plugin_name (d_module d) (plugin_data st))
           (fun g => load_deny_loop g (name e))).
  intros g. induction g as [|x|n g IH]; simpl; frame A i; [exact IH|].
  intros st r st' H. destruct (dict_get n (plugin_data st)).
  - inversion H; subst. apply dstep_refl.
  - eapply IH; eauto.
Qed.

Lemma dstep_modules_loaded A i g :
  preserves (dstep A i) (modules_loaded_loop g).
Proof.
  induction g as [|x|n g IH]; simpl; frame A i. exact IH.
Qed.

Lemma static_setdefault d : static_d (setdefault_executed d) = static_d d.
Proof. unfold setdefault_executed. destruct (d_executed d); reflexivity. Qed.

Lemma dstep_run_after_load A i d e j :
  (name e, j) <> (A, i) ->
  preserves (dstep A i) (_directive_run_after_load call_ok d e j).
Proof.
  intros Hne. unfold _directive_run_after_load.
  apply (preserves_bind _ (dstep_trans A i)).
  { apply dstep_modify_directive; [apply static_setdefault|exact Hne]. }
  intros _. destruct (d_method d) as [m|]; [|frame A i].
  destruct (negb (default (d_executed d) false)); [|frame A i].
  apply (preserves_read (dstep A i)
           (fun st => _resolve_plugin_name (d_module d) (plugin_data st))
           (fun g => all_loaded <- modules_loaded_loop g ;;
                     if all_loaded then
                       if loaded e then
                         modify_directive (set_executed true) (name e) j ;;
                         call_method call_ok (name e) j m
                       else ret tt
                     else ret tt)).
  intros g. frame A i.
  - apply dstep_modules_loaded.
  - apply dstep_modify_directive; [reflexivity|exact Hne].
  - apply dstep_call_method. exact Hne.
Qed.

Definition is_run_after_load (d : directive) : bool :=
  String.eqb (d_directive d) "run-after-load".

Lemma dstep_apply_directive A i d e j :
  (name e, j) <> (A, i) \/ is_run_after_load d = false ->
  preserves (dstep A i) (apply_directive call_ok d e j).
Proof.
  intros H. unfold apply_directive, _load_directives.
  destruct (String.eqb (d_directive d) "load-after"); [apply dstep_load_after|].
  destruct (String.eqb (d_directive d) "load-before"); [apply dstep_load_before|].
  destruct (String.eqb (d_directive d) "load-deny"); [apply dstep_load_deny|].
  destruct (String.eqb (d_directive d) "run-after-load") eqn:E.
  - apply dstep_run_after_load. destruct H as [H|H]; [exact H|].
    unfold is_run_after_load in H. congruence.
  - apply (preserves_raise _ (dstep_refl A i)).
Qed.

End HandlerFrames.

(* ================================================================= *)
(** ** Reaching one directive in a pass

    [around A i target st r st']: a run from [st] to [st'] with result [r]
    that either raises before it reaches the directive at [(A, i)], or
    gets there, runs [target], and, when that returns, goes on with other
    directives only. *)

Definition around (A : string) (i : nat) (target : M unit)
  (st : state) (r : result unit) (st' : state) : Prop :=
  (exists x, r = Raised x /\ dstep A i st st') \/
  (exists st1 r1 st2,
      dstep A i st st1 /\ target st1 = (r1, st2) /\
      match r1 with
      | Raised x => r = Raised x /\ st' = st2
      | Ok _ => dstep A i st2 st'
      end).

Lemma dstep_then_around A i target st st1 r st' :
  dstep A i st st1 -> around A i target st1 r st' -> around A i target st r st'.
Proof.
  intros H [(x & -> & H1)|(st2 & r1 & st3 & H1 & H2 & H3)].
  - left. exists x. split; [reflexivity|]. eapply dstep_trans; eauto.
  - right. exists st2, r1, st3. split; [eapply dstep_trans; eauto|]. auto.
Qed.

Lemma around_then_dstep A i target st st1 r st' :
  around A i target st (Ok tt) st1 -> dstep A i st1 st' ->
  around A i target st r st'.
Proof.
  intros [(x & E & _)|(st2 & r1 & st3 & H1 & H2 & H3)] H; [discriminate|].
  right. exists st2, r1, st3. split; [exact H1|]. split; [exact H2|].
  destruct r1 as [u|x].
  - eapply dstep_trans; eauto.
  - destruct H3. discriminate.
Qed.

Lemma around_raised A i target st x st1 :
  around A i target st (Raised x) st1 ->
  forall r, r = Raised x -> around A i target st r st1.
Proof. intros H r ->. exact H. Qed.

(** The frame of directive evaluation as a whole. *)
Record wstep (st st' : state) : Prop := mk_wstep {
  wstep_shape : shape st' = shape st;
  wstep_loaded : loaded_map st' = loaded_map st;
  wstep_can_load : forall k, can_load_of k st' = true -> can_load_of k st = true;
  wstep_plugins : plugins_mod st' = plugins_mod st;
  wstep_trace : exists t, trace st' = trace st ++ t /\
                  Forall (fun ev => exists k j m, ev = EvCall k j m) t
}.

Lemma wstep_refl st : wstep st st.
Proof.
  constructor; auto. exists []. rewrite app_nil_r. auto.
Qed.

Lemma wstep_trans st1 st2 st3 : wstep st1 st2 -> wstep st2 st3 -> wstep st1 st3.
Proof.
  intros [S1 L1 C1 P1 (t1 & E1 & F1)] [S2 L2 C2 P2 (t2 & E2 & F2)].
  constructor; try congruence; auto.
  exists (t1 ++ t2). split.
  - rewrite E2, E1, app_assoc. reflexivity.
  - apply Forall_app. auto.
Qed.

Lemma dstep_wstep A i st st' : dstep A i st st' -> wstep st st'.
Proof.
  intros [S L C P T (t & E & F)]. constructor; auto.
  exists t. split; [exact E|]. eapply Forall_impl; [|exact F].
  intros [|k|k j m]; simpl; try tauto. eauto.
Qed.

Section Passes.

Variable call_ok : string -> string -> bool.

Lemma wstep_apply_directive d e j : preserves wstep (apply_directive call_ok d e j).
Proof.
  intros st r st' H. apply (dstep_wstep (name e) (S j)).
  eapply dstep_apply_directive; [|exact H]. left. intros E.
  injection E as E. lia.
Qed.

Lemma wstep_for_directives ds idx e :
  preserves wstep (for_directives call_ok ds idx e).
Proof.
  revert idx. induction ds as [|d ds IH]; intros idx; simpl.
  - apply (preserves_ret _ wstep_refl).
  - apply (preserves_bind _ wstep_trans); [apply wstep_apply_directive|].
    intros _. apply IH.
Qed.

Lemma wstep_apply_loop ks : preserves wstep (apply_loop call_ok ks).
Proof.
  induction ks as [|k ks IH]; simpl.
  - apply (preserves_ret _ wstep_refl).
  - apply (preserves_bind _ wstep_trans); [apply (preserves_getitem _ wstep_refl)|].
    intros e. apply (preserves_bind _ wstep_trans); [apply wstep_for_directives|].
    intros _. apply IH.
Qed.

Lemma wstep_apply_load_directives : preserves wstep (apply_load_directives call_ok).
Proof.
  unfold apply_load_directives.
  apply (preserves_read wstep (fun st => keys (plugin_data st))
           (fun ks => apply_loop call_ok ks)).
  apply wstep_apply_loop.
Qed.

Lemma dstep_for_directives A i e ds idx :
  name e <> A \/ i < idx ->
  preserves (dstep A i) (for_directives call_ok ds idx e).
Proof.
  revert idx. induction ds as [|d ds IH]; intros idx H; simpl.
  - apply (preserves_ret _ (dstep_refl A i)).
  - apply (preserves_bind _ (dstep_trans A i)).
    + apply dstep_apply_directive. left. intros E. injection E as E1 E2.
      destruct H; [congruence|lia].
    + intros _. apply IH. destruct H; [now left|right; lia].
Qed.

Lemma for_directives_around A i e ds idx n d st r st' :
  name e = A -> nth_error ds n = Some d -> i = idx + n ->
  for_directives call_ok ds idx e st = (r, st') ->
  around A i (apply_directive call_ok d e i) st r st'.
Proof.
  intros Hn. revert idx n st. induction ds as [|d0 ds IH]; intros idx n st Hd Hi H.
  - destruct n; discriminate.
  - simpl in H. destruct (bind_inv _ _ _ _ _ H) as [(u & st1 & H1 & H2)|(x & H1 & ->)].
    + destruct n as [|n]; simpl in Hd.
      * inversion Hd; subst d0. replace (idx + 0) with idx in Hi by lia. subst i.
        right. exists st, (Ok u), st1. split; [apply dstep_refl|]. split; [exact H1|].
        eapply dstep_for_directives; [|exact H2]. right. lia.
      * eapply dstep_then_around.
        -- eapply dstep_apply_directive; [|exact H1]. left. intros E.
           inversion E. lia.
        -- eapply IH; [exact Hd| |exact H2]. lia.
    + destruct n as [|n]; simpl in Hd.
      * inversion Hd; subst d0. replace (idx + 0) with idx in Hi by lia. subst i.
        right. exists st, (Raised x), st'. split; [apply dstep_refl|]. auto.
      * left. exists x. split; [reflexivity|].
        eapply dstep_apply_directive; [|exact H1]. left. intros E.
        inversion E. lia.
Qed.

Lemma getitem_inv k st r st' :
  getitem k st = (r, st') ->
  st' = st /\
  match r with
  | Ok e => dict_get k (plugin_data st) = Some e
  | Raised x => dict_get k (plugin_data st) = None /\ x = KeyError k
  end.
Proof.
  unfold getitem. destruct (dict_get k (plugin_data st)); intros H;
    inversion H; subst; auto.
Qed.

Lemma dstep_apply_loop A i ks st r st' :
  ~ In A ks -> wf (plugin_data st) ->
  apply_loop call_ok ks st = (r, st') -> dstep A i st st'.
Proof.
  revert st. induction ks as [|k ks IH]; intros st Hni Hwf H; simpl in H.
  - inversion H; subst. apply dstep_refl.
  - destruct (bind_inv _ _ _ _ _ H) as [(e & st1 & H1 & H2)|(x & H1 & ->)];
      apply getitem_inv in H1; destruct H1 as [-> H1]; [|apply dstep_refl].
    assert (Hne : name e <> A).
    { rewrite (proj2 Hwf _ _ H1). intros ->. apply Hni. now left. }
    destruct (bind_inv _ _ _ _ _ H2) as [(u & st2 & H3 & H4)|(x & H3 & ->)].
    + assert (D : dstep A i st st2)
        by (eapply dstep_for_directives; [left; exact Hne|exact H3]).
      eapply dstep_trans; [exact D|]. eapply IH; [|  |exact H4].
      * intros Hin. apply Hni. now right.
      * eapply shape_wf; [apply (dstep_shape _ _ _ _ D)|exact Hwf].
    + eapply dstep_for_directives; [left; exact Hne|exact H3].
Qed.

Lemma apply_loop_around A i d ks st r st' :
  NoDup ks -> In A ks -> wf (plugin_data st) ->
  directive_at A i st = Some d ->
  apply_loop call_ok ks st = (r, st') ->
  exists e, name e = A /\ loaded e = is_loaded A st /\
            around A i (apply_directive call_ok d e i) st r st'.
Proof.
  revert st. induction ks as [|k ks IH]; intros st Hnd Hin Hwf Hd H; [destruct Hin|].
  simpl in H. inversion Hnd as [|? ? Hni Hnd']; subst.
  destruct (string_dec k A) as [->|Hne].
  - unfold directive_at in Hd.
    destruct (dict_get A (plugin_data st)) as [e|] eqn:He; [|discriminate].
    exists e. split; [apply (proj2 Hwf _ _ He)|].
    split; [unfold is_loaded; rewrite He; reflexivity|].
    rewrite (bind_ok _ _ st e st) in H by (unfold getitem; rewrite He; reflexivity).
    destruct (bind_inv _ _ _ _ _ H) as [(u & st1 & H1 & H2)|(x & H1 & ->)].
    + assert (Ar : around A i (apply_directive call_ok d e i) st (Ok u) st1).
      { eapply for_directives_around; [apply (proj2 Hwf _ _ He)|exact Hd| |exact H1].
        reflexivity. }
      destruct u. eapply around_then_dstep; [exact Ar|].
      eapply dstep_apply_loop; [exact Hni| |exact H2].
      eapply shape_wf; [|exact Hwf].
      apply wstep_shape. eapply wstep_for_directives. exact H1.
    + eapply for_directives_around; [apply (proj2 Hwf _ _ He)|exact Hd| |exact H1].
      reflexivity.
  - destruct Hin as [Hin|Hin]; [contradiction|].
    destruct (bind_inv _ _ _ _ _ H) as [(e & st1 & H1 & H2)|(x & H1 & ->)];
      apply getitem_inv in H1; destruct H1 as [-> H1].
    + assert (Hne' : name e <> A) by (rewrite (proj2 Hwf _ _ H1); exact Hne).
      destruct (bind_inv _ _ _ _ _ H2) as [(u & st2 & H3 & H4)|(x & H3 & ->)].
      * assert (D : dstep A i st st2)
          by (eapply dstep_for_directives; [left; exact Hne'|exact H3]).
        destruct (IH st2 Hnd' Hin) with (3 := H4) as (e' & En & El & Ar).
        -- eapply shape_wf; [apply (dstep_shape _ _ _ _ D)|exact Hwf].
        -- rewrite (dstep_target _ _ _ _ D). exact Hd.
        -- exists e'. split; [exact En|]. split.
           ++ rewrite El. apply loaded_map_is_loaded. apply (dstep_loaded _ _ _ _ D).
           ++ eapply dstep_then_around; eauto.
      * exists (mkEntry A A None [] [] [] (is_loaded A st) false).
        split; [reflexivity|]. split; [reflexivity|].
        left. exists x. split; [reflexivity|].
        eapply dstep_for_directives; [left; exact Hne'|exact H3].
    + exists (mkEntry A A None [] [] [] (is_loaded A st) false).
      split; [reflexivity|]. split; [reflexivity|].
      left. exists x. split; [reflexivity|apply dstep_refl].
Qed.

End Passes.

Section PassOfOne.

Variable call_ok : string -> string -> bool.

(** A whole pass over the directives, seen from the directive at [(A, i)]. *)
Lemma apply_load_directives_around A i d st r st' :
  wf (plugin_data st) ->
  directive_at A i st = Some d ->
  apply_load_directives call_ok st = (r, st') ->
  exists e, name e = A /\ loaded e = is_loaded A st /\
            around A i (apply_directive call_ok d e i) st r st'.
Proof.
  intros Hwf Hd H. unfold apply_load_directives in H.
  eapply apply_loop_around; [apply Hwf| |exact Hwf|exact Hd|exact H].
  apply dict_get_keys. unfold directive_at in Hd.
  destruct (dict_get A (plugin_data st)) as [e|]; [eauto|discriminate].
Qed.

End PassOfOne.

(* ================================================================= *)
(** ** The loading pass *)

(** The names of the package's own dictionaries. *)
Definition reserved (k : string) : bool :=
  String.eqb k "plugins" || String.eqb k "services" || String.eqb k "plugin_data".

(** The three attributes of the package are still dictionaries. *)
Definition intact (p : plugins_module) : bool :=
  match plugins p, services p, plugin_data_copy p with
  | Dict _, Dict _, Dict _ => true
  | _, _, _ => false
  end.

(** What [_load_plugin] records in a package whose attributes are
    dictionaries. *)
Definition record_plugin (e : plugin_entry) (p : plugins_module) : plugins_module :=
  match plugins p, services p, plugin_data_copy p with
  | Dict pl, Dict sv, Dict pdc =>
      mkPlugins
        (Dict (dict_set (name e) (PluginModule (name e)) pl))
        (Dict (setdefault_append (name e) (PluginModule (name e)) sv))
        (Dict (dict_set (name e) e pdc))
  | _, _, _ => p
  end.

(** A plugin that the loading pass will try to load. *)
Definition loadable (st : state) (k : string) : bool :=
  negb (is_loaded k st) && can_load_of k st.

Section Attempts.

Variable ok : string -> bool.

(** The loads attempted from a list of candidates: up to and including
    the first one that fails. *)
Fixpoint attempted (l : list string) : list string :=
  match l with
  | [] => []
  | k :: rest => k :: (if ok k then attempted rest else [])
  end.

End Attempts.

Lemma attempted_ext (f g : string -> bool) l :
  (forall k, f k = g k) -> attempted f l = attempted g l.
Proof.
  intros H. induction l as [|k l IH]; simpl; [reflexivity|].
  rewrite H, IH. reflexivity.
Qed.

Section Loading.

Variable import_ok : string -> bool.

(** Loading the plugin succeeds: its import succeeds, it does not take
    the place of one of the package's dictionaries, and none of them has
    been replaced before. *)
Definition load_ok (st : state) (k : string) : bool :=
  import_ok k && negb (reserved k) && intact (plugins_mod st).

(** The exception of a load that fails. *)
Definition load_error (p : plugins_module) (k : string) : exn :=
  if import_ok k then
    let p' := bind_submodule k (PluginModule k) p in
    match plugins p', services p' with
    | Submodule _, _ =>
        TypeError "'module' object does not support item assignment"
    | Dict _, Submodule _ => AttributeError "setdefault"
    | Dict _, Dict _ =>
        TypeError "'module' object does not support item assignment"
    end
  else ImportError k.

Lemma bind_submodule_free k m p :
  reserved k = false -> bind_submodule k m p = p.
Proof.
  unfold reserved, bind_submodule. intros H.
  apply orb_false_elim in H. destruct H as [H H3].
  apply orb_false_elim in H. destruct H as [H1 H2].
  rewrite H1, H2, H3. destruct p; reflexivity.
Qed.

Lemma intact_record e p : intact p = true -> intact (record_plugin e p) = true.
Proof.
  unfold intact, record_plugin.
  destruct (plugins p), (services p), (plugin_data_copy p); simpl;
    intros H; try discriminate; reflexivity.
Qed.

Lemma load_plugin_eq e st :
  _load_plugin import_ok e st =
  if load_ok st (name e) then
    (Ok tt,
     mkState (dict_adjust (set_loaded true) (name e) (plugin_data st))
             (record_plugin e (plugins_mod st))
             (trace st ++ [EvImport (name e)]))
  else
    (Raised (load_error (plugins_mod st) (name e)),
     snd (_load_plugin import_ok e st)).
Proof.
  unfold load_ok, load_error, _load_plugin, import_module, bind, emit, reserved,
    bind_submodule, setitem_plugins, append_service, setitem_plugin_data, intact,
    record_plugin; simpl.
  destruct (import_ok (name e)); simpl; [|reflexivity].
  destruct (String.eqb (name e) "plugins"), (String.eqb (name e) "services"),
    (String.eqb (name e) "plugin_data"),
    (plugins (plugins_mod st)), (services (plugins_mod st)),
    (plugin_data_copy (plugins_mod st)); reflexivity.
Qed.

(** A load that fails changes neither the registry nor, beyond the
    import, the trace. *)
Lemma load_plugin_failed e st :
  load_ok st (name e) = false ->
  plugin_data (snd (_load_plugin import_ok e st)) = plugin_data st /\
  trace (snd (_load_plugin import_ok e st)) = trace st ++ [EvImport (name e)].
Proof.
  unfold load_ok, _load_plugin, import_module, bind, emit, reserved,
    bind_submodule, setitem_plugins, append_service, setitem_plugin_data, intact;
    simpl.
  destruct (import_ok (name e)); simpl; [|auto].
  destruct (String.eqb (name e) "plugins"), (String.eqb (name e) "services"),
    (String.eqb (name e) "plugin_data"),
    (plugins (plugins_mod st)), (services (plugins_mod st)),
    (plugin_data_copy (plugins_mod st)); simpl; intros H; auto; discriminate.
Qed.

Lemma is_loaded_set_loaded k k' st p t :
  is_loaded k' (mkState (dict_adjust (set_loaded true) k (plugin_data st)) p t) =
  is_loaded k' st || (String.eqb k k' && existsb (String.eqb k') (keys (plugin_data st))).
Proof.
  unfold is_loaded; simpl. rewrite dict_get_adjust.
  destruct (String.eqb k k') eqn:E; simpl; [|rewrite orb_false_r; reflexivity].
  destruct (dict_get k' (plugin_data st)) as [e|] eqn:G; simpl.
  - assert (Hin : In k' (keys (plugin_data st))) by (apply dict_get_keys; eauto).
    assert (Ex : existsb (String.eqb k') (keys (plugin_data st)) = true).
    { apply existsb_exists. exists k'. split; [exact Hin|apply String.eqb_refl]. }
    rewrite Ex, orb_true_r. reflexivity.
  - destruct (existsb (String.eqb k') (keys (plugin_data st))) eqn:Ex; [|reflexivity].
    apply existsb_exists in Ex. destruct Ex as (x & Hx & Ex).
    apply String.eqb_eq in Ex. subst x.
    apply dict_get_keys in Hx. destruct Hx as [v Hv]. congruence.
Qed.

Lemma can_load_of_set_loaded k k' st p t :
  can_load_of k' (mkState (dict_adjust (set_loaded true) k (plugin_data st)) p t) =
  can_load_of k' st.
Proof.
  unfold can_load_of; simpl. rewrite dict_get_adjust.
  destruct (String.eqb k k'); [|reflexivity].
  destruct (dict_get k' (plugin_data st)); reflexivity.
Qed.

Lemma shape_set_loaded k st p t :
  shape (mkState (dict_adjust (set_loaded true) k (plugin_data st)) p t) = shape st.
Proof. unfold shape; simpl. apply dict_map_adjust. reflexivity. Qed.

(** The result of the loading pass, as the code reports it. *)
Definition load_result (st : state) (ks : list string) (loaded_any loaded_all : bool)
  : result (bool * bool) :=
  let cand := filter (loadable st) ks in
  match filter (fun k => negb (load_ok st k)) cand with
  | k :: _ => Raised (load_error (plugins_mod st) k)
  | [] =>
      Ok (loaded_any || negb (Nat.eqb (List.length cand) 0),
          loaded_all && forallb (fun k => is_loaded k st) ks)
  end.

Lemma load_ok_package st st' :
  intact (plugins_mod st') = intact (plugins_mod st) ->
  forall k, load_ok st' k = load_ok st k.
Proof. intros H k. unfold load_ok. rewrite H. reflexivity. Qed.

Lemma load_loop_spec ks : forall loaded_any loaded_all st r st',
  wf (plugin_data st) -> NoDup ks -> incl ks (keys (plugin_data st)) ->
  load_loop import_ok ks loaded_any loaded_all st = (r, st') ->
  let att := attempted (load_ok st) (filter (loadable st) ks) in
  r = load_result st ks loaded_any loaded_all /\
  trace st' = trace st ++ map EvImport att /\
  shape st' = shape st /\
  (forall k, can_load_of k st' = can_load_of k st) /\
  (forall k, is_loaded k st' =
             is_loaded k st || existsb (String.eqb k) (filter (load_ok st) att)).
Proof.
  induction ks as [|k ks IH]; intros any all st r st' Hwf Hnd Hin H; simpl in H.
  - inversion H; subst. unfold load_result; simpl. rewrite app_nil_r, !orb_false_r, andb_true_r.
    repeat split; auto. intros k. rewrite orb_false_r. reflexivity.
  - inversion Hnd as [|? ? Hni Hnd']; subst.
    assert (Hk : In k (keys (plugin_data st))) by (apply Hin; now left).
    assert (Hin' : incl ks (keys (plugin_data st)))
      by (intros x Hx; apply Hin; now right).
    apply dict_get_keys in Hk. destruct Hk as [e He].
    rewrite (bind_ok _ _ st e st) in H by (unfold getitem; rewrite He; reflexivity).
    assert (Hl : is_loaded k st = loaded e) by (unfold is_loaded; rewrite He; reflexivity).
    assert (Hc : can_load_of k st = can_load e)
      by (unfold can_load_of; rewrite He; reflexivity).
    assert (Hn : name e = k) by (apply (proj2 Hwf _ _ He)).
    assert (Hlb : loadable st k = negb (loaded e) && can_load e)
      by (unfold loadable; rewrite Hl, Hc; reflexivity).
    cbv zeta. unfold load_result. simpl filter. simpl forallb. rewrite !Hlb, Hl.
    destruct (loaded e) eqn:El; simpl in H |- *.
    + apply IH in H; auto.
    + destruct (can_load e) eqn:Ec; simpl in H |- *.
      * unfold bind in H. rewrite load_plugin_eq, Hn in H.
        destruct (load_ok st k) eqn:Ei; simpl.
        -- set (st1 := mkState (dict_adjust (set_loaded true) k (plugin_data st))
                               (record_plugin e (plugins_mod st))
                               (trace st ++ [EvImport k])) in *.
           assert (Hf : filter (loadable st1) ks = filter (loadable st) ks).
           { apply filter_ext_in. intros x Hx. unfold loadable, st1.
             rewrite is_loaded_set_loaded, can_load_of_set_loaded.
             destruct (String.eqb k x) eqn:E; [|rewrite orb_false_r; reflexivity].
             apply String.eqb_eq in E. subst x. contradiction. }
           assert (Hi : intact (plugins_mod st) = true).
           { unfold load_ok in Ei. apply andb_true_iff in Ei. apply Ei. }
           assert (Hok : forall x, load_ok st1 x = load_ok st x).
           { apply load_ok_package. unfold st1; simpl.
             rewrite Hi. apply intact_record, Hi. }
           assert (Herr : forall x, load_error (plugins_mod st1) x =
                                    load_error (plugins_mod st) x).
           { intros x. unfold st1, load_error, bind_submodule, record_plugin, intact in *.
             simpl.
             destruct (plugins (plugins_mod st)), (services (plugins_mod st)),
               (plugin_data_copy (plugins_mod st)); try discriminate; simpl.
             destruct (import_ok x), (String.eqb x "plugins"),
               (String.eqb x "services"); reflexivity. }
           apply IH in H; auto.
           ++ unfold load_result in H. rewrite Hf in H.
              rewrite (attempted_ext _ _ _ Hok) in H.
              rewrite (filter_ext _ _ Hok) in H.
              rewrite (filter_ext (fun x => negb (load_ok st1 x))
                                  (fun x => negb (load_ok st x))) in H
                by (intros x; rewrite Hok; reflexivity).
              destruct H as (Hr & Ht & Hs & Hcl & Hld).
              split; [|split; [|split; [|split]]].
              ** rewrite Hr.
                 destruct (filter (fun k0 => negb (load_ok st k0)) (filter (loadable st) ks));
                   [|rewrite Herr; reflexivity].
                 simpl. rewrite ?orb_true_r, ?andb_false_r. reflexivity.
              ** rewrite Ht. unfold st1; simpl. rewrite <- app_assoc. reflexivity.
              ** rewrite Hs. apply shape_set_loaded.
              ** intros x. rewrite Hcl. apply can_load_of_set_loaded.
              ** intros x. rewrite Hld. unfold st1. rewrite is_loaded_set_loaded.
                 simpl. rewrite (String.eqb_sym x k).
                 destruct (String.eqb k x) eqn:E; simpl.
                 --- apply String.eqb_eq in E. subst x.
                     assert (Ex : existsb (String.eqb k) (keys (plugin_data st)) = true).
                     { apply existsb_exists. exists k. split; [|apply String.eqb_refl].
                       apply Hin. now left. }
                     rewrite Ex, !orb_true_r. reflexivity.
                 --- rewrite orb_false_r. reflexivity.
           ++ apply (shape_wf st st1); [apply shape_set_loaded|exact Hwf].
           ++ unfold st1; simpl. rewrite keys_dict_adjust. exact Hin'.
        -- assert (Hfail : load_ok st (name e) = false) by (rewrite Hn; exact Ei).
           destruct (load_plugin_failed e st Hfail) as [Hpd Htr].
           inversion H; subst r st'; simpl.
           split; [reflexivity|]. split; [rewrite Htr, Hn; reflexivity|].
           split; [unfold shape; rewrite Hpd; reflexivity|].
           split; [intros x; unfold can_load_of; rewrite Hpd; reflexivity|].
           intros x. rewrite orb_false_r. unfold is_loaded. rewrite Hpd. reflexivity.
      * apply IH in H; auto.
        destruct H as (Hr & H). split; [|exact H].
        rewrite Hr. unfold load_result. rewrite andb_false_r. reflexivity.
Qed.


End Loading.

(* ================================================================= *)
(** ** One pass of the scheduler loop *)

(** The state after "Reset all can-load flags". *)
Definition reset_state (st : state) : state :=
  mkState (dict_map (set_can_load true) (plugin_data st))
          (plugins_mod st)
          (trace st ++ [EvCycle]).

Lemma dict_map_map {V X} (p : V -> X) (f : V -> V) (d : dict V) :
  (forall v, p (f v) = p v) -> dict_map p (dict_map f d) = dict_map p d.
Proof.
  intros H. unfold dict_map. rewrite map_map. apply map_ext.
  intros [k v]; simpl. rewrite H. reflexivity.
Qed.

Lemma shape_reset st : shape (reset_state st) = shape st.
Proof. unfold shape; simpl. apply dict_map_map. reflexivity. Qed.

Lemma loaded_map_reset st : loaded_map (reset_state st) = loaded_map st.
Proof. unfold loaded_map; simpl. apply dict_map_map. reflexivity. Qed.

Lemma is_loaded_reset k st : is_loaded k (reset_state st) = is_loaded k st.
Proof. apply loaded_map_is_loaded, loaded_map_reset. Qed.

Lemma directive_at_reset k i st :
  directive_at k i (reset_state st) = directive_at k i st.
Proof.
  unfold directive_at; simpl. rewrite dict_get_map.
  destruct (dict_get k (plugin_data st)); reflexivity.
Qed.

Lemma wf_reset st : wf (plugin_data st) -> wf (plugin_data (reset_state st)).
Proof. apply shape_wf, shape_reset. Qed.

Lemma keys_reset st : keys (plugin_data (reset_state st)) = keys (plugin_data st).
Proof. apply shape_keys, shape_reset. Qed.

Definition is_call (ev : event) : Prop := exists k j m, ev = EvCall k j m.

Section Cycle.

Variable import_ok : string -> bool.
Variable call_ok : string -> string -> bool.

Lemma cycle_eq st :
  cycle import_ok call_ok st =
  (apply_load_directives call_ok ;; load_available import_ok) (reset_state st).
Proof. reflexivity. Qed.

Lemma load_ok_after_directives st st_b :
  wstep (reset_state st) st_b ->
  forall k, load_ok import_ok st_b k = load_ok import_ok st k.
Proof.
  intros W. apply load_ok_package. rewrite (wstep_plugins _ _ W). reflexivity.
Qed.

(** The events of one pass: the pass marker, then method calls, then
    imports. *)
Lemma cycle_summary st r st' :
  wf (plugin_data st) ->
  cycle import_ok call_ok st = (r, st') ->
  exists r1 st_b calls att,
    apply_load_directives call_ok (reset_state st) = (r1, st_b) /\
    wstep (reset_state st) st_b /\
    trace st_b = trace st ++ EvCycle :: calls /\
    Forall is_call calls /\
    trace st' = trace st_b ++ map EvImport att /\
    shape st' = shape st /\
    (forall k, is_loaded k st' =
               is_loaded k st ||
               existsb (String.eqb k) (filter (load_ok import_ok st) att)) /\
    match r1 with
    | Raised x => r = Raised x /\ st' = st_b /\ att = []
    | Ok _ =>
        r = load_result import_ok st_b (keys (plugin_data st)) false true /\
        att = attempted (load_ok import_ok st)
                (filter (loadable st_b) (keys (plugin_data st)))
    end.
Proof.
  intros Hwf H. rewrite cycle_eq in H.
  destruct (apply_load_directives call_ok (reset_state st)) as [r1 st_b] eqn:E1.
  assert (W : wstep (reset_state st) st_b)
    by (eapply wstep_apply_load_directives; exact E1).
  destruct W as [Ws Wl Wc Wp (calls & Wt & Wf)].
  assert (Hl : forall k, is_loaded k st_b = is_loaded k st).
  { intros k. rewrite <- (is_loaded_reset k st). apply loaded_map_is_loaded. exact Wl. }
  assert (Hs : shape st_b = shape st) by (rewrite Ws; apply shape_reset).
  assert (Hok : forall k, load_ok import_ok st_b k = load_ok import_ok st k).
  { apply load_ok_after_directives. constructor; eauto. }
  unfold bind in H. rewrite E1 in H. destruct r1 as [u|x].
  - unfold load_available in H.
    apply load_loop_spec in H.
    + destruct H as (Hr & Ht & Hsh & Hcl & Hld).
      rewrite (shape_keys _ _ Hs) in *.
      rewrite (attempted_ext _ _ _ Hok) in Ht, Hld.
      rewrite (filter_ext _ _ Hok) in Hld.
      exists (Ok u), st_b, calls,
        (attempted (load_ok import_ok st)
           (filter (loadable st_b) (keys (plugin_data st)))).
      split; [reflexivity|]. split; [constructor; eauto|].
      split; [rewrite Wt; simpl; rewrite <- app_assoc; reflexivity|].
      split; [exact Wf|]. split; [exact Ht|]. split; [congruence|].
      split; [intros k; rewrite Hld, Hl; reflexivity|]. auto.
    + eapply shape_wf; [exact Hs|exact Hwf].
    + eapply shape_wf; [exact Hs|exact Hwf].
    + apply incl_refl.
  - inversion H; subst r st'.
    exists (Raised x), st_b, calls, []. split; [reflexivity|].
    split; [constructor; eauto|].
    split; [rewrite Wt; simpl; rewrite <- app_assoc; reflexivity|].
    split; [exact Wf|]. split; [simpl; rewrite app_nil_r; reflexivity|].
    split; [exact Hs|]. split; [|auto].
    intros k. simpl. rewrite orb_false_r. apply Hl.
Qed.


End Cycle.

(* ================================================================= *)
(** ** Imports over a run *)

(** The plugins imported in a trace, in order: the load order. *)
Definition imports (t : list event) : list string :=
  flat_map (fun ev => match ev with EvImport k => [k] | _ => [] end) t.

Lemma imports_app t1 t2 : imports (t1 ++ t2) = imports t1 ++ imports t2.
Proof. unfold imports. apply flat_map_app. Qed.

Lemma imports_calls t : Forall is_call t -> imports t = [].
Proof.
  induction 1 as [|ev t (k & j & m & ->) _ IH]; simpl; [reflexivity|exact IH].
Qed.

Lemma imports_map l : imports (map EvImport l) = l.
Proof. induction l as [|k l IH]; simpl; [|rewrite IH]; reflexivity. Qed.

Lemma imports_In k t : In k (imports t) <-> In (EvImport k) t.
Proof.
  unfold imports. rewrite in_flat_map. split.
  - intros ([ | k' | ] & Hin & H); simpl in H; try tauto.
    destruct H as [->|[]]. exact Hin.
  - intros H. exists (EvImport k). split; [exact H|now left].
Qed.

Section Attempted.

Variable import_ok : string -> bool.

Lemma attempted_prefix l : exists l2, l = attempted import_ok l ++ l2.
Proof.
  induction l as [|k l (l2 & IH)]; simpl; [exists []; reflexivity|].
  destruct (import_ok k).
  - exists l2. simpl. congruence.
  - exists l. reflexivity.
Qed.

Lemma attempted_In k l : In k (attempted import_ok l) -> In k l.
Proof.
  destruct (attempted_prefix l) as (l2 & E). intros H. rewrite E.
  apply in_or_app. now left.
Qed.

Lemma attempted_NoDup l : NoDup l -> NoDup (attempted import_ok l).
Proof.
  destruct (attempted_prefix l) as (l2 & E). intros H. rewrite E in H.
  apply NoDup_app_remove_r in H. exact H.
Qed.

Lemma attempted_all_ok l :
  filter (fun k => negb (import_ok k)) l = [] -> attempted import_ok l = l.
Proof.
  induction l as [|k l IH]; simpl; [reflexivity|].
  destruct (import_ok k); simpl; [|discriminate].
  intros H. rewrite IH; auto.
Qed.

Lemma filter_all_ok l :
  filter (fun k => negb (import_ok k)) l = [] -> filter import_ok l = l.
Proof.
  induction l as [|k l IH]; simpl; [reflexivity|].
  destruct (import_ok k); simpl; [|discriminate].
  intros H. rewrite IH; auto.
Qed.

End Attempted.

Lemma existsb_eqb_In k l : existsb (String.eqb k) l = true <-> In k l.
Proof.
  rewrite existsb_exists. split.
  - intros (x & Hx & E). apply String.eqb_eq in E. subst. exact Hx.
  - intros H. exists k. split; [exact H|apply String.eqb_refl].
Qed.

Section Runs.

Variable import_ok : string -> bool.
Variable call_ok : string -> string -> bool.

Lemma load_result_ok st ks a b u :
  load_result import_ok st ks a b = Ok u ->
  filter (fun k => negb (load_ok import_ok st k)) (filter (loadable st) ks) = [].
Proof.
  unfold load_result.
  destruct (filter (fun k => negb (load_ok import_ok st k)) (filter (loadable st) ks));
    [reflexivity|discriminate].
Qed.

(** The imports of one pass: distinct plugins that were not loaded. *)
Lemma cycle_imports st r st' :
  wf (plugin_data st) ->
  cycle import_ok call_ok st = (r, st') ->
  exists t,
    trace st' = trace st ++ EvCycle :: t /\
    NoDup (imports t) /\
    (forall k, In k (imports t) -> is_loaded k st = false) /\
    (forall k, is_loaded k st' =
               is_loaded k st ||
               existsb (String.eqb k) (filter (load_ok import_ok st) (imports t))) /\
    shape st' = shape st /\
    (forall u, r = Ok u -> filter (load_ok import_ok st) (imports t) = imports t) /\
    (forall loaded_any loaded_all, r = Ok (loaded_any, loaded_all) ->
       (loaded_any = true <-> imports t <> []) /\
       (loaded_all = true <-> forall k, In k (keys (plugin_data st)) -> is_loaded k st = true)).
Proof.
  intros Hwf H.
  destruct (cycle_summary _ _ _ _ _ Hwf H)
    as (r1 & st_b & calls & att & E1 & W & Tb & Fc & T' & Hs & Hl & Hr).
  exists (calls ++ map EvImport att).
  rewrite imports_app, (imports_calls _ Fc), imports_map. simpl.
  split; [rewrite T', Tb, <- app_assoc; reflexivity|].
  assert (Hlb : forall k, is_loaded k st_b = is_loaded k st).
  { intros k. rewrite <- (is_loaded_reset k st).
    apply loaded_map_is_loaded, (wstep_loaded _ _ W). }
  assert (Hokb : forall l, filter (fun k => negb (load_ok import_ok st_b k)) l =
                           filter (fun k => negb (load_ok import_ok st k)) l).
  { intros l. apply filter_ext. intros k.
    rewrite (load_ok_after_directives _ _ _ W). reflexivity. }
  destruct r1 as [u|x].
  - destruct Hr as (Hr & ->). split; [|split; [|split; [|split; [|split]]]]; auto.
    + apply attempted_NoDup, NoDup_filter, Hwf.
    + intros k Hk. apply attempted_In, filter_In in Hk. destruct Hk as [_ Hk].
      unfold loadable in Hk. rewrite Hlb in Hk.
      destruct (is_loaded k st); [discriminate|reflexivity].
    + intros v ->. symmetry in Hr. apply load_result_ok in Hr. rewrite Hokb in Hr.
      rewrite (attempted_all_ok _ _ Hr). apply filter_all_ok, Hr.
    + intros a b ->. symmetry in Hr. pose proof (load_result_ok _ _ _ _ _ Hr) as Hf.
      unfold load_result in Hr. rewrite Hf in Hr. rewrite Hokb in Hf.
      rewrite (attempted_all_ok _ _ Hf).
      simpl in Hr. inversion Hr; subst a b. split.
      * destruct (filter (loadable st_b) (keys (plugin_data st))); simpl;
          split; congruence.
      * rewrite forallb_forall. split; intros Hx k Hk; [rewrite <- Hlb|rewrite Hlb]; auto.
  - destruct Hr as (-> & _ & ->). split; [constructor|]. split; [intros k []|].
    split; [auto|]. split; [auto|]. split; discriminate.
Qed.


(** The plugins that are not loaded yet. *)
Definition unloaded (st : state) : list string :=
  filter (fun k => negb (is_loaded k st)) (keys (plugin_data st)).

Lemma filter_length_lt {X} (p q : X -> bool) (l : list X) :
  (forall x, In x l -> q x = true -> p x = true) ->
  (exists x, In x l /\ p x = true /\ q x = false) ->
  List.length (filter q l) < List.length (filter p l).
Proof.
  induction l as [|a l IH]; intros Hi (x & Hx & Hp & Hq); [destruct Hx|].
  assert (Hle : forall l', (forall x, In x l' -> q x = true -> p x = true) ->
                 List.length (filter q l') <= List.length (filter p l')).
  { clear. induction l' as [|b l' IH]; intros H; simpl; [lia|].
    assert (IH' := IH (fun x Hx => H x (or_intror Hx))).
    destruct (q b) eqn:Eq.
    - rewrite (H b (or_introl eq_refl) Eq). simpl. lia.
    - destruct (p b); simpl; lia. }
  simpl. destruct Hx as [->|Hx].
  - rewrite Hp, Hq. simpl.
    specialize (Hle l (fun y Hy => Hi y (or_intror Hy))). lia.
  - assert (IH' : List.length (filter q l) < List.length (filter p l)).
    { apply IH; [intros y Hy; apply Hi; now right|eauto]. }
    destruct (q a) eqn:Eq.
    + rewrite (Hi a (or_introl eq_refl) Eq). simpl. lia.
    + destruct (p a); simpl; lia.
Qed.

(** A pass that goes on to the next one leaves fewer plugins unloaded. *)
Lemma cycle_progress st loaded_all st' :
  wf (plugin_data st) ->
  cycle import_ok call_ok st = (Ok (true, loaded_all), st') ->
  List.length (unloaded st') < List.length (unloaded st).
Proof.
  intros Hwf H.
  destruct (cycle_imports _ _ _ Hwf H) as (t & Ht & Hnd & Hu & Hl & Hs & Hok & Hr).
  destruct (Hr _ _ eq_refl) as [Hany _].
  unfold unloaded. rewrite (shape_keys _ _ Hs).
  apply filter_length_lt.
  - intros k _. rewrite Hl. destruct (is_loaded k st); simpl; [discriminate|auto].
  - destruct (imports t) as [|k l] eqn:Et; [exfalso; apply Hany; auto|].
    exists k. assert (Hk : In k (k :: l)) by now left.
    assert (Hkl := Hu _ Hk).
    assert (E : is_loaded k st' = true).
    { rewrite Hl, (Hok _ eq_refl). apply orb_true_iff. right.
      apply existsb_eqb_In. exact Hk. }
    split; [|split].
    + rewrite <- (shape_keys _ _ Hs). apply dict_get_keys.
      unfold is_loaded in E. destruct (dict_get k (plugin_data st')); [eauto|discriminate].
    + rewrite Hkl. reflexivity.
    + rewrite E. reflexivity.
Qed.

(** The loop ends within one pass more than there are unloaded plugins. *)
Lemma load_plugins_loop_total fuel : forall st,
  wf (plugin_data st) ->
  List.length (unloaded st) < fuel ->
  fst (load_plugins_loop import_ok call_ok fuel st) <> Unfinished.
Proof.
  induction fuel as [|fuel IH]; intros st Hwf Hlt; [lia|].
  simpl. destruct (cycle import_ok call_ok st) as [[[loaded_any loaded_all]|x] st1] eqn:Ec;
    [|simpl; discriminate].
  destruct loaded_all; [simpl; discriminate|].
  destruct loaded_any; simpl; [|discriminate].
  apply IH.
  - destruct (cycle_imports _ _ _ Hwf Ec) as (t & _ & _ & _ & _ & Hs & _).
    eapply shape_wf; eauto.
  - pose proof (cycle_progress _ _ _ Hwf Ec). lia.
Qed.

Lemma unloaded_length st : List.length (unloaded st) <= List.length (plugin_data st).
Proof.
  unfold unloaded. etransitivity; [apply filter_length_le|].
  unfold keys. rewrite length_map. reflexivity.
Qed.

(** [_load_plugins] always comes to an end. *)
Lemma load_plugins_total pd :
  wf pd -> fst (_load_plugins import_ok call_ok pd) <> Unfinished.
Proof.
  intros Hwf. unfold _load_plugins. apply load_plugins_loop_total; [exact Hwf|].
  pose proof (unloaded_length (initial_state pd)). simpl in *. lia.
Qed.

(** More passes than needed change nothing. *)
Lemma load_plugins_loop_more fuel : forall st out st' fuel',
  load_plugins_loop import_ok call_ok fuel st = (out, st') ->
  out <> Unfinished -> fuel <= fuel' ->
  load_plugins_loop import_ok call_ok fuel' st = (out, st').
Proof.
  induction fuel as [|fuel IH]; intros st out st' fuel' H Hne Hle; simpl in H.
  - inversion H; subst. contradiction.
  - destruct fuel' as [|fuel']; [lia|]. simpl.
    destruct (cycle import_ok call_ok st) as [[[loaded_any loaded_all]|x] st1]; [|exact H].
    destruct loaded_all; [exact H|].
    destruct loaded_any; simpl in *; [|exact H].
    apply IH; [exact H|exact Hne|lia].
Qed.

End Runs.

(* ================================================================= *)
(** ** Registration *)

(** A registry as [_load_plugin_manifests] leaves it: well formed, with
    nothing loaded. *)
Definition fresh (pd : registry) : Prop :=
  wf pd /\ forall k e, dict_get k pd = Some e -> loaded e = false.

Lemma register_fresh manifests : forall pd,
  fresh pd -> fresh (register manifests pd).
Proof.
  induction manifests as [|m ms IH]; intros pd H; simpl; [exact H|].
  apply IH. destruct H as [[Hnd Hn] Hl]. split; [split|].
  - apply NoDup_keys_dict_set, Hnd.
  - intros k e. rewrite dict_get_set.
    destruct (String.eqb (name m) k) eqn:E; [|apply Hn].
    apply String.eqb_eq in E. intros [= <-]. exact E.
  - intros k e. rewrite dict_get_set.
    destruct (String.eqb (name m) k); [|apply Hl].
    intros [= <-]. reflexivity.
Qed.

Lemma fresh_nil : fresh [].
Proof.
  split; [split; [constructor|]|]; intros k e H; discriminate.
Qed.

Lemma load_plugin_manifests_fresh files pd :
  _load_plugin_manifests files = Ok pd -> fresh pd.
Proof.
  unfold _load_plugin_manifests. destruct (parse_all files); [|discriminate].
  intros [= <-]. apply register_fresh, fresh_nil.
Qed.

Lemma fresh_is_loaded pd k : fresh pd -> is_loaded k (initial_state pd) = false.
Proof.
  intros [_ H]. unfold is_loaded; simpl.
  destruct (dict_get k pd) eqn:E; [eauto|reflexivity].
Qed.


(* ================================================================= *)
(** ** Plugin sets without directives *)


(** The number of passes of the scheduler loop in a trace. *)
Definition cycles (t : list event) : nat :=
  List.length (filter (fun ev => match ev with EvCycle => true | _ => false end) t).





Section DirectiveFree.

Variable import_ok : string -> bool.
Variable call_ok : string -> string -> bool.



Lemma cycles_app t1 t2 : cycles (t1 ++ t2) = cycles t1 + cycles t2.
Proof. unfold cycles. rewrite filter_app, length_app. reflexivity. Qed.

Lemma cycles_imports l : cycles (map EvImport l) = 0.
Proof. induction l as [|k l IH]; [reflexivity|exact IH]. Qed.



End DirectiveFree.




(* ================================================================= *)
(** ** Single instantiation *)

Section Instantiation.

Variable import_ok : string -> bool.
Variable call_ok : string -> string -> bool.


End Instantiation.


(** C9.  The code at the failing input: a plugin named [plugins], without
    directives, whose import succeeds.  The import is made, but it binds
    the package's attribute [plugins] to the plugin's module, recording
    the plugin raises a type error, and the plugin's ["loaded"] flag is
    still false when the run ends. *)
Lemma plugin_named_plugins_is_imported_but_not_loaded :
  let pd := register [mkEntry "plugins" "plugins" None [] [] [] false false] [] in
  let run := _load_plugins (fun _ => true) (fun _ _ => true) pd in
  fst run = Aborted (TypeError "'module' object does not support item assignment") /\
  trace (snd run) = [EvCycle; EvImport "plugins"] /\
  is_loaded "plugins" (snd run) = false.
Proof.
  repeat split; vm_compute; reflexivity.
Qed.

(* ================================================================= *)
(** ** Declared directives *)

(** A reference with the wildcard marker. *)
Definition is_wildcard (r : string) : bool :=
  match r with
  | String "$"%char _ => true
  | _ => false
  end.

Lemma resolve_concrete r pd :
  is_wildcard r = false -> _resolve_plugin_name r pd = Yield r Stop.
Proof.
  unfold _resolve_plugin_name, is_wildcard. destruct r as [|c r]; [reflexivity|].
  destruct c as [[] [] [] [] [] [] [] []]; try reflexivity. discriminate.
Qed.

(** Plugin [A] has, at position [i] of its directive list, a directive of
    the given kind and target. *)
Definition declares (st : state) (A : string) (i : nat) (kind target : string)
  : Prop :=
  exists d, directive_at A i st = Some d /\ d_directive d = kind /\ d_module d = target.

Lemma shape_directive_at st st' A i d :
  shape st' = shape st -> directive_at A i st = Some d ->
  exists d', directive_at A i st' = Some d' /\ static_d d' = static_d d.
Proof.
  intros Hs H. unfold directive_at in *.
  destruct (dict_get A (plugin_data st)) as [e|] eqn:He; [|discriminate].
  symmetry in Hs. destruct (shape_get _ _ _ _ Hs He) as (e' & He' & Es).
  rewrite He'. injection Es as _ _ Hd.
  assert (E : nth_error (map static_d (load_directives e')) i = Some (static_d d)).
  { rewrite Hd. apply map_nth_error. exact H. }
  rewrite nth_error_map in E.
  destruct (nth_error (load_directives e') i) as [d'|]; [|discriminate].
  exists d'. split; [reflexivity|]. simpl in E. congruence.
Qed.

Lemma declares_shape st st' A i kind target :
  shape st' = shape st -> declares st A i kind target -> declares st' A i kind target.
Proof.
  intros Hs (d & Hd & Hk & Hm).
  destruct (shape_directive_at _ _ _ _ _ Hs Hd) as (d' & Hd' & E).
  exists d'. split; [exact Hd'|]. injection E as E1 E2 E3. split; congruence.
Qed.

Lemma declares_initial pd A e d kind target :
  dict_get A pd = Some e -> In d (load_directives e) ->
  d_directive d = kind -> d_module d = target ->
  exists i, declares (initial_state pd) A i kind target.
Proof.
  intros He Hin Hk Hm. apply In_nth_error in Hin. destruct Hin as [i Hi].
  exists i, d. unfold directive_at; simpl. rewrite He. auto.
Qed.

Section LoadAfter.

Variable import_ok : string -> bool.
Variable call_ok : string -> string -> bool.

Lemma apply_directive_load_after d e i :
  d_directive d = "load-after" ->
  apply_directive call_ok d e i = _directive_load_after d e i.
Proof. unfold apply_directive. intros ->. reflexivity. Qed.

Lemma apply_directive_load_before d e i :
  d_directive d = "load-before" ->
  apply_directive call_ok d e i = _directive_load_before d e i.
Proof. unfold apply_directive. intros ->. reflexivity. Qed.

Lemma apply_directive_load_deny d e i :
  d_directive d = "load-deny" ->
  apply_directive call_ok d e i = _directive_load_deny d e i.
Proof. unfold apply_directive. intros ->. reflexivity. Qed.

Lemma apply_directive_run_after_load d e i :
  d_directive d = "run-after-load" ->
  apply_directive call_ok d e i = _directive_run_after_load call_ok d e i.
Proof. unfold apply_directive. intros ->. reflexivity. Qed.

(** [load-after] with a concrete target: a key error when the target is
    unknown; otherwise the declaring plugin is held back if the target is
    not loaded. *)
Lemma load_after_concrete d e i st :
  is_wildcard (d_module d) = false ->
  _directive_load_after d e i st =
  match dict_get (d_module d) (plugin_data st) with
  | None => (Raised (KeyError (d_module d)), st)
  | Some module_entry =>
      if loaded module_entry then (Ok tt, st)
      else (Ok tt, set_plugin_data
                     (dict_adjust (set_can_load false) (name e) (plugin_data st)) st)
  end.
Proof.
  intros Hw. unfold _directive_load_after. rewrite (resolve_concrete _ _ Hw).
  simpl. unfold bind, getitem.
  destruct (dict_get (d_module d) (plugin_data st)) as [me|]; [|reflexivity].
  destruct (loaded me); reflexivity.
Qed.

Lemma can_load_of_cleared k st :
  can_load_of k (set_plugin_data (dict_adjust (set_can_load false) k (plugin_data st)) st)
  = false.
Proof.
  unfold can_load_of; simpl. rewrite dict_get_adjust_same.
  destruct (dict_get k (plugin_data st)); reflexivity.
Qed.

(** A pass over the directives that returns leaves a plugin that declares
    [load-after] on an unloaded plugin unable to load. *)
Lemma load_after_blocks st st' A i B :
  wf (plugin_data st) ->
  declares st A i "load-after" B -> is_wildcard B = false ->
  is_loaded B st = false ->
  apply_load_directives call_ok st = (Ok tt, st') ->
  can_load_of A st' = false.
Proof.
  intros Hwf (d & Hd & Hk & Hm) Hw Hl H.
  destruct (apply_load_directives_around _ _ _ _ _ _ _ Hwf Hd H)
    as (e & Hn & _ & [(x & E & _)|(st1 & r1 & st2 & D1 & T & D2)]); [discriminate|].
  rewrite (apply_directive_load_after _ _ _ Hk) in T.
  rewrite load_after_concrete in T by (rewrite Hm; exact Hw).
  rewrite Hm in T.
  assert (Hl1 : is_loaded B st1 = false).
  { rewrite <- Hl. apply loaded_map_is_loaded, (dstep_loaded _ _ _ _ D1). }
  unfold is_loaded in Hl1.
  destruct (dict_get B (plugin_data st1)) as [eb|].
  - rewrite Hl1 in T. inversion T; subst r1 st2.
    destruct (can_load_of A st') eqn:E; [|reflexivity].
    apply (dstep_can_load _ _ _ _ D2) in E.
    rewrite Hn, can_load_of_cleared in E. discriminate.
  - inversion T; subst r1 st2. destruct D2. discriminate.
Qed.

End LoadAfter.

(* ================================================================= *)
(** ** Ordering of loads *)

Lemma app_eq_app_cases {X} (x : X) (t1 t2 l l' : list X) :
  t1 ++ x :: t2 = l ++ l' ->
  (exists m, l = t1 ++ x :: m /\ t2 = m ++ l') \/
  (exists m, t1 = l ++ m /\ l' = m ++ x :: t2).
Proof.
  revert l. induction t1 as [|a t1 IH]; intros l H.
  - destruct l as [|b l]; simpl in H.
    + right. exists []. auto.
    + inversion H; subst. left. exists l. auto.
  - destruct l as [|b l]; simpl in H.
    + right. exists (a :: t1). auto.
    + inversion H; subst. destruct (IH _ H2) as [(m & -> & ->)|(m & -> & ->)].
      * left. exists m. auto.
      * right. exists m. auto.
Qed.

Section Ordering.

Variable import_ok : string -> bool.
Variable call_ok : string -> string -> bool.

(** A plugin imported in a pass was not loaded, and the directives of
    that pass have left its ["can-load"] flag set. *)
Lemma cycle_import_needs st r st' t k :
  wf (plugin_data st) ->
  cycle import_ok call_ok st = (r, st') ->
  trace st' = trace st ++ EvCycle :: t ->
  In (EvImport k) t ->
  exists st_b,
    apply_load_directives call_ok (reset_state st) = (Ok tt, st_b) /\
    can_load_of k st_b = true /\ is_loaded k st = false.
Proof.
  intros Hwf H Ht Hin.
  destruct (cycle_summary _ _ _ _ _ Hwf H)
    as (r1 & st_b & calls & att & E1 & W & Tb & Fc & T' & Hs & Hl & Hr).
  rewrite T', Tb, <- app_assoc in Ht. apply app_inv_head in Ht.
  simpl in Ht. injection Ht as Ht. subst t.
  apply imports_In in Hin. rewrite imports_app, (imports_calls _ Fc), imports_map in Hin.
  simpl in Hin. destruct r1 as [[]|x].
  - destruct Hr as (_ & ->). apply attempted_In, filter_In in Hin.
    destruct Hin as [_ Hin]. unfold loadable in Hin.
    apply andb_true_iff in Hin. destruct Hin as [Hu Hc].
    exists st_b. split; [exact E1|]. split; [exact Hc|].
    rewrite <- (is_loaded_reset k st).
    rewrite <- (loaded_map_is_loaded _ _ k (wstep_loaded _ _ W)).
    destruct (is_loaded k st_b); [discriminate|reflexivity].
  - destruct Hr as (_ & _ & ->). destruct Hin.
Qed.

(** In the trace, every import of [A] comes after an import of [B] and a
    later start of a pass. *)
Definition imported_in_earlier_cycle (B A : string) (t : list event) : Prop :=
  forall t1 t2, t = t1 ++ EvImport A :: t2 ->
  import_ok B = true /\
  exists u v w, t1 = u ++ EvImport B :: v ++ EvCycle :: w.

(** Every plugin that counts as loaded has been imported successfully. *)
Definition loaded_were_imported (st : state) : Prop :=
  forall k, is_loaded k st = true -> In (EvImport k) (trace st) /\ import_ok k = true.

Lemma cycle_loaded_were_imported st r st' :
  wf (plugin_data st) -> loaded_were_imported st ->
  cycle import_ok call_ok st = (r, st') -> loaded_were_imported st'.
Proof.
  intros Hwf Hli H k Hk.
  destruct (cycle_imports _ _ _ _ _ Hwf H) as (t & Ht & _ & _ & Hl & _).
  rewrite Hl in Hk. apply orb_true_iff in Hk. rewrite Ht. destruct Hk as [Hk|Hk].
  - destruct (Hli _ Hk). split; [apply in_or_app; now left|assumption].
  - apply existsb_eqb_In, filter_In in Hk. destruct Hk as [Hk Ho].
    unfold load_ok in Ho. rewrite !andb_true_iff in Ho.
    split; [|apply Ho]. apply in_or_app. right. right. apply imports_In, Hk.
Qed.

Lemma load_after_ordered fuel A i B : forall st out st',
  wf (plugin_data st) -> loaded_were_imported st ->
  declares st A i "load-after" B -> is_wildcard B = false ->
  imported_in_earlier_cycle B A (trace st) ->
  load_plugins_loop import_ok call_ok fuel st = (out, st') ->
  imported_in_earlier_cycle B A (trace st').
Proof.
  induction fuel as [|fuel IH]; intros st out st' Hwf Hli Hd Hw Hp H; simpl in H.
  - inversion H; subst. exact Hp.
  - destruct (cycle import_ok call_ok st) as [r st1] eqn:Ec.
    destruct (cycle_imports _ _ _ _ _ Hwf Ec) as (t & Ht & _ & _ & _ & Hs & _).
    assert (Hp1 : imported_in_earlier_cycle B A (trace st1)).
    { intros t1 t2 E. rewrite Ht in E. symmetry in E.
      destruct (app_eq_app_cases _ _ _ _ _ E) as [(m & E1 & E2)|(m & E1 & E2)].
      - exact (Hp _ _ E1).
      - destruct m as [|ev m]; [discriminate|].
        injection E2 as <- E2.
        assert (Hin : In (EvImport A) t) by (rewrite E2; apply in_elt).
        destruct (cycle_import_needs _ _ _ _ _ Hwf Ec Ht Hin) as (st_b & Hb & Hc & _).
        destruct (is_loaded B st) eqn:Hl.
        + destruct (Hli _ Hl) as [HB Ho]. apply in_split in HB.
          destruct HB as (u & v & HB). split; [exact Ho|]. exists u, v, m.
          rewrite E1, HB, <- app_assoc. reflexivity.
        + rewrite (load_after_blocks call_ok (reset_state st) st_b A i B) in Hc;
            [discriminate| | | | |]; auto.
          * apply wf_reset, Hwf.
          * eapply declares_shape; [apply shape_reset|exact Hd].
          * rewrite is_loaded_reset. exact Hl. }
    assert (Done : forall o, (o, st1) = (out, st') ->
                   imported_in_earlier_cycle B A (trace st')).
    { intros o Eo. inversion Eo; subst. exact Hp1. }
    destruct r as [[loaded_any loaded_all]|x]; [|eapply Done; eauto].
    destruct loaded_all; [eapply Done; eauto|].
    destruct loaded_any; simpl in H; [|eapply Done; eauto].
    eapply IH; [| | | | |exact H]; auto.
    + eapply shape_wf; eauto.
    + eapply cycle_loaded_were_imported; eauto.
    + eapply declares_shape; eauto.
Qed.

(** C7.  When [A] declares [load-after] on the plugin [B], every import
    of [A] in a run is preceded by a successful import of [B] and, after
    that, by the start of a later scheduling cycle: [B] is loaded in a
    cycle before the one that instantiates [A]. *)
Theorem load_after_loads_target_first fuel pd A B eA d out st' :
  fresh pd ->
  dict_get A pd = Some eA -> In d (load_directives eA) ->
  d_directive d = "load-after" -> d_module d = B -> is_wildcard B = false ->
  load_plugins_loop import_ok call_ok fuel (initial_state pd) = (out, st') ->
  forall t1 t2, trace st' = t1 ++ EvImport A :: t2 ->
  import_ok B = true /\
  exists u v w, t1 = u ++ EvImport B :: v ++ EvCycle :: w.
Proof.
  intros Hf HA Hin Hk Hm Hw H t1 t2 Ht.
  destruct (declares_initial _ _ _ _ _ _ HA Hin Hk Hm) as (i & Hd).
  assert (Hli : loaded_were_imported (initial_state pd)).
  { intros k Hl. rewrite (fresh_is_loaded _ _ Hf) in Hl. discriminate. }
  assert (Hp0 : imported_in_earlier_cycle B A (trace (initial_state pd))).
  { intros [|? ?] ? E; discriminate. }
  pose proof (load_after_ordered fuel A i B (initial_state pd) out st'
                (proj1 Hf) Hli Hd Hw Hp0 H) as Hp.
  exact (Hp _ _ Ht).
Qed.

End Ordering.

Lemma load_after_loads_target_first_witness :
  exists u v w,
    [EvCycle; EvImport "b"; EvCycle] = u ++ EvImport "b" :: v ++ EvCycle :: w.
Proof.
  pose (import_ok := fun _ : string => true).
  pose (call_ok := fun _ _ : string => true).
  pose (d := mkDirective "load-after" "b" None None).
  pose (eA := mkEntry "a" "a" None [] [d] [] false false).
  pose (pd := register [eA; mkEntry "b" "b" None [] [] [] false false] []).
  pose (X := load_plugins_loop import_ok call_ok 3 (initial_state pd)).
  apply (load_after_loads_target_first import_ok call_ok 3 pd "a" "b" eA d
           (fst X) (snd X)) with (t2 := [EvCycle]).
  - apply register_fresh, fresh_nil.
  - reflexivity.
  - now left.
  - reflexivity.
  - reflexivity.
  - reflexivity.
  - exact (surjective_pairing X).
  - vm_compute. reflexivity.
Defined.


(* ================================================================= *)
(** ** Deadlock *)

Section Deadlock.

Variable import_ok : string -> bool.
Variable call_ok : string -> string -> bool.





End Deadlock.

(* ================================================================= *)
(** ** Plugin sets with ordering directives only *)




Section Orderly.

Variable import_ok : string -> bool.
Variable call_ok : string -> string -> bool.

Lemma load_before_concrete d e i st :
  is_wildcard (d_module d) = false ->
  _directive_load_before d e i st =
  match dict_get (d_module d) (plugin_data st) with
  | None => (Raised (KeyError (d_module d)), st)
  | Some _ =>
      if loaded e then (Ok tt, st)
      else (Ok tt, set_plugin_data
                     (dict_adjust (set_can_load false) (d_module d) (plugin_data st)) st)
  end.
Proof.
  intros Hw. unfold _directive_load_before. rewrite (resolve_concrete _ _ Hw).
  simpl. unfold bind, getitem.
  destruct (dict_get (d_module d) (plugin_data st)) as [me|]; [|reflexivity].
  destruct (loaded e); reflexivity.
Qed.






End Orderly.

Section DeadlockDetection.

Variable import_ok : string -> bool.
Variable call_ok : string -> string -> bool.


End DeadlockDetection.



(* ================================================================= *)
(** ** What directive evaluation can raise before anything is loaded *)

(** The names a generator yields before it stops or raises. *)
Fixpoint yields (g : gen) : list string :=
  match g with
  | Stop => []
  | Raise _ => []
  | Yield n rest => n :: yields rest
  end.

(** The generator raises nothing and yields registered plugins only. *)
Fixpoint gen_ok (ks : list string) (g : gen) : Prop :=
  match g with
  | Stop => True
  | Raise _ => False
  | Yield n rest => In n ks /\ gen_ok ks rest
  end.

Definition known_kind (d : directive) : Prop :=
  match _load_directives (fun _ _ => true) (d_directive d) with
  | Some _ => True
  | None => False
  end.

(** A directive whose evaluation finds every key it looks up. *)
Definition closed_d (st : state) (d : directive) : Prop :=
  known_kind d /\
  gen_ok (keys (plugin_data st)) (_resolve_plugin_name (d_module d) (plugin_data st)) /\
  (is_run_after_load d = true -> d_method d <> None).

Definition closed (st : state) : Prop :=
  forall k e d, dict_get k (plugin_data st) = Some e -> In d (load_directives e) ->
  closed_d st d.

Definition all_unloaded (st : state) : Prop :=
  forall k, is_loaded k st = false.

(** A key error, or the veto of [load-deny]. *)
Definition key_or_denied (x : exn) : Prop :=
  x = DeniedPlugin \/ exists k, x = KeyError k.

Lemma closed_d_shape st st' d d' :
  shape st' = shape st -> static_d d' = static_d d ->
  closed_d st d -> closed_d st' d'.
Proof.
  intros Hs Ed (Hk & Hg & Hm). injection Ed as E1 E2 E3.
  unfold closed_d, known_kind, is_run_after_load.
  rewrite (shape_keys _ _ Hs), (resolve_shape _ _ _ Hs), E1, E2, E3. auto.
Qed.

Lemma closed_shape st st' : shape st' = shape st -> closed st -> closed st'.
Proof.
  intros Hs H k e' d' He' Hd'.
  destruct (shape_get _ _ _ _ Hs He') as (e & He & Es).
  injection Es as _ _ Hm.
  assert (Hin : In (static_d d') (map static_d (load_directives e))).
  { rewrite Hm. apply in_map, Hd'. }
  apply in_map_iff in Hin. destruct Hin as (d & Ed & Hd).
  eapply closed_d_shape; [exact Hs|symmetry; exact Ed|]. eapply H; eauto.
Qed.

(** A generator that raises key errors only. *)
Fixpoint gen_raises_key (g : gen) : Prop :=
  match g with
  | Stop => True
  | Raise x => exists k, x = KeyError k
  | Yield _ rest => gen_raises_key rest
  end.

Lemma resolve_raises_key r pd : gen_raises_key (_resolve_plugin_name r pd).
Proof.
  unfold _resolve_plugin_name.
  assert (H : forall s l, gen_raises_key (resolve_service s l)).
  { intros s l. induction l as [|e l IH]; simpl; [exact I|].
    destruct (service e) as [sv|]; [|simpl; eauto].
    destruct (String.eqb sv s); simpl; exact IH. }
  destruct r as [|c r]; simpl; [exact I|].
  destruct c as [[] [] [] [] [] [] [] []]; simpl; auto.
Qed.

Lemma keys_set_can_load k st :
  keys (plugin_data
          (set_plugin_data (dict_adjust (set_can_load false) k (plugin_data st)) st))
  = keys (plugin_data st).
Proof. simpl. apply keys_dict_adjust. Qed.

Section FirstPass.

Variable call_ok : string -> string -> bool.

Lemma load_after_loop_raises g e : forall st x st',
  gen_raises_key g ->
  load_after_loop g e st = (Raised x, st') ->
  (exists k, x = KeyError k) /\ ~ gen_ok (keys (plugin_data st)) g.
Proof.
  induction g as [|y|n g IH]; intros st x st' Hg H; simpl in H.
  - discriminate.
  - inversion H; subst. split; [exact Hg|]. simpl. tauto.
  - unfold bind, getitem in H.
    destruct (dict_get n (plugin_data st)) as [me|] eqn:E.
    + destruct (negb (loaded me)); simpl in H.
      * apply IH in H; [|exact Hg]. simpl in H. rewrite keys_dict_adjust in H.
        split; [apply H|]. simpl. tauto.
      * apply IH in H; [|exact Hg]. split; [apply H|]. simpl. tauto.
    + inversion H; subst. split; [eauto|]. simpl. intros [Hin _].
      apply dict_get_keys in Hin. destruct Hin as [v Hv]. congruence.
Qed.

Lemma load_before_loop_raises g e : forall st x st',
  gen_raises_key g ->
  load_before_loop g e st = (Raised x, st') ->
  (exists k, x = KeyError k) /\ ~ gen_ok (keys (plugin_data st)) g.
Proof.
  induction g as [|y|n g IH]; intros st x st' Hg H; simpl in H.
  - discriminate.
  - inversion H; subst. split; [exact Hg|]. simpl. tauto.
  - unfold bind, getitem in H.
    destruct (dict_get n (plugin_data st)) as [me|] eqn:E.
    + destruct (negb (loaded e)); simpl in H.
      * apply IH in H; [|exact Hg]. simpl in H. rewrite keys_dict_adjust in H.
        split; [apply H|]. simpl. tauto.
      * apply IH in H; [|exact Hg]. split; [apply H|]. simpl. tauto.
    + inversion H; subst. split; [eauto|]. simpl. intros [Hin _].
      apply dict_get_keys in Hin. destruct Hin as [v Hv]. congruence.
Qed.

Lemma load_deny_loop_raises g A : forall st x st',
  gen_raises_key g ->
  load_deny_loop g A st = (Raised x, st') ->
  x = DeniedPlugin \/
  ((exists k, x = KeyError k) /\ ~ gen_ok (keys (plugin_data st)) g).
Proof.
  induction g as [|y|n g IH]; intros st x st' Hg H; simpl in H.
  - discriminate.
  - inversion H; subst. right. split; [exact Hg|]. simpl. tauto.
  - unfold bind, getitem in H.
    destruct (dict_get n (plugin_data st)) as [me|] eqn:E.
    + destruct (String.eqb n A).
      * apply IH in H; [|exact Hg]. simpl. tauto.
      * rewrite E in H. inversion H; subst. now left.
    + inversion H; subst. right. split; [eauto|]. simpl. intros [Hin _].
      apply dict_get_keys in Hin. destruct Hin as [v Hv]. congruence.
Qed.

Lemma modules_loaded_loop_inv g : forall st r st',
  gen_raises_key g ->
  modules_loaded_loop g st = (r, st') ->
  st' = st /\
  forall x, r = Raised x ->
  (exists k, x = KeyError k) /\ ~ gen_ok (keys (plugin_data st)) g.
Proof.
  induction g as [|y|n g IH]; intros st r st' Hg H; simpl in H.
  - inversion H; subst. split; [reflexivity|discriminate].
  - inversion H; subst. split; [reflexivity|]. intros x [= <-].
    split; [exact Hg|]. simpl. tauto.
  - unfold bind, getitem in H.
    destruct (dict_get n (plugin_data st)) as [me|] eqn:E.
    + destruct (negb (loaded me)).
      * inversion H; subst. split; [reflexivity|discriminate].
      * apply IH in H; [|exact Hg]. destruct H as [-> H]. split; [reflexivity|].
        intros x Hx. destruct (H x Hx). split; [assumption|]. simpl. tauto.
    + inversion H; subst. split; [reflexivity|]. intros x [= <-].
      split; [eauto|]. simpl. intros [Hin _].
      apply dict_get_keys in Hin. destruct Hin as [v Hv]. congruence.
Qed.

(** No method is called and nothing is imported. *)
Definition silent (st st' : state) : Prop := trace st' = trace st.

Lemma silent_refl st : silent st st.
Proof. reflexivity. Qed.

Lemma silent_trans st1 st2 st3 : silent st1 st2 -> silent st2 st3 -> silent st1 st3.
Proof. unfold silent. congruence. Qed.

Lemma silent_modify_entry f k : preserves silent (modify_entry f k).
Proof. intros st r st' H. inversion H; subst. reflexivity. Qed.

Ltac hush :=
  repeat first
    [ apply (preserves_ret _ silent_refl)
    | apply (preserves_raise _ silent_refl)
    | apply (preserves_getitem _ silent_refl)
    | apply silent_modify_entry
    | apply (preserves_bind _ silent_trans); [|intro]
    | match goal with |- preserves _ (if ?b then _ else _) => destruct b end ].

Lemma silent_load_after_loop g e : preserves silent (load_after_loop g e).
Proof. induction g as [|x|n g IH]; simpl; hush. exact IH. Qed.

Lemma silent_load_before_loop g e : preserves silent (load_before_loop g e).
Proof. induction g as [|x|n g IH]; simpl; hush. exact IH. Qed.

Lemma silent_load_deny_loop g A : preserves silent (load_deny_loop g A).
Proof.
  induction g as [|x|n g IH]; simpl; hush; [exact IH|].
  intros st r st' H. destruct (dict_get n (plugin_data st)).
  - inversion H; subst. reflexivity.
  - eapply IH; eauto.
Qed.

Lemma silent_modules_loaded_loop g : preserves silent (modules_loaded_loop g).
Proof. induction g as [|x|n g IH]; simpl; hush. exact IH. Qed.

Lemma shape_modify_directive f k j st :
  (forall d, static_d (f d) = static_d d) ->
  shape (snd (modify_directive f k j st)) = shape st.
Proof.
  intros Hf. unfold modify_directive, modify_entry, shape; simpl.
  apply dict_map_adjust. intros e. unfold entry_shape; simpl.
  rewrite (map_list_adjust static_d f j _ Hf). reflexivity.
Qed.

(** Evaluating a directive of a plugin that is not loaded calls nothing,
    and raises nothing but the veto or the error of a failed lookup. *)
Lemma apply_directive_unloaded d e j st r st' :
  loaded e = false ->
  apply_directive call_ok d e j st = (r, st') ->
  trace st' = trace st /\
  forall x, r = Raised x ->
    x = DeniedPlugin \/ ((exists k, x = KeyError k) /\ ~ closed_d st d).
Proof.
  intros Hl H. unfold apply_directive, _load_directives in H.
  destruct (String.eqb (d_directive d) "load-after") eqn:K1.
  { split; [eapply silent_load_after_loop; exact H|]. intros x ->. right.
    unfold _directive_load_after in H.
    apply load_after_loop_raises in H; [|apply resolve_raises_key].
    split; [apply H|]. intros (_ & Hg & _). apply (proj2 H Hg). }
  destruct (String.eqb (d_directive d) "load-before") eqn:K2.
  { split; [eapply silent_load_before_loop; exact H|]. intros x ->. right.
    unfold _directive_load_before in H.
    apply load_before_loop_raises in H; [|apply resolve_raises_key].
    split; [apply H|]. intros (_ & Hg & _). apply (proj2 H Hg). }
  destruct (String.eqb (d_directive d) "load-deny") eqn:K3.
  { split; [eapply silent_load_deny_loop; exact H|]. intros x ->.
    unfold _directive_load_deny in H.
    apply load_deny_loop_raises in H; [|apply resolve_raises_key].
    destruct H as [H|H]; [now left|right].
    split; [apply H|]. intros (_ & Hg & _). apply (proj2 H Hg). }
  destruct (String.eqb (d_directive d) "run-after-load") eqn:K4.
  - unfold _directive_run_after_load in H.
    unfold bind at 1 in H.
    pose proof (shape_modify_directive setdefault_executed (name e) j st
                  static_setdefault) as Hs.
    destruct (modify_directive setdefault_executed (name e) j st) as [r0 st0] eqn:E0.
    assert (Ht0 : trace st0 = trace st).
    { unfold modify_directive, modify_entry in E0. inversion E0; reflexivity. }
    assert (r0 = Ok tt).
    { unfold modify_directive, modify_entry in E0. inversion E0; reflexivity. }
    subst r0. simpl in Hs.
    destruct (d_method d) as [m|] eqn:Em.
    + destruct (negb (default (d_executed d) false)).
      * unfold bind in H.
        destruct (modules_loaded_loop
                    (_resolve_plugin_name (d_module d) (plugin_data st0)) st0)
          as [r1 st1] eqn:E1.
        apply modules_loaded_loop_inv in E1; [|apply resolve_raises_key].
        destruct E1 as [-> E1]. destruct r1 as [b|y].
        -- rewrite Hl in H.
           assert (E : (r, st') = (Ok tt, st0)) by (destruct b; inversion H; reflexivity).
           inversion E; subst. split; [exact Ht0|discriminate].
        -- inversion H; subst. split; [exact Ht0|]. intros x [= <-]. right.
           destruct (E1 _ eq_refl) as [Hk Hg]. split; [exact Hk|].
           intros (_ & Hg' & _). apply Hg.
           rewrite (shape_keys _ _ Hs), (resolve_shape _ _ _ Hs). exact Hg'.
      * inversion H; subst. split; [exact Ht0|discriminate].
    + inversion H; subst. split; [exact Ht0|]. intros x [= <-]. right.
      split; [eauto|]. intros (_ & _ & Hm). apply Hm; [|exact Em].
      exact K4.
  - inversion H; subst. split; [reflexivity|]. intros x [= <-]. right.
    split; [eauto|]. intros (Hk & _). unfold known_kind, _load_directives in Hk.
    rewrite K1, K2, K3, K4 in Hk. exact Hk.
Qed.

Lemma for_directives_unloaded ds : forall j e st r st',
  loaded e = false ->
  for_directives call_ok ds j e st = (r, st') ->
  trace st' = trace st /\
  forall x, r = Raised x ->
    x = DeniedPlugin \/
    ((exists k, x = KeyError k) /\ exists d, In d ds /\ ~ closed_d st d).
Proof.
  induction ds as [|d ds IH]; intros j e st r st' Hl H; simpl in H.
  - inversion H; subst. split; [reflexivity|discriminate].
  - destruct (bind_inv _ _ _ _ _ H) as [(u & st1 & H1 & H2)|(x & H1 & ->)].
    + pose proof (wstep_apply_directive call_ok d e j _ _ _ H1) as W.
      destruct (apply_directive_unloaded _ _ _ _ _ _ Hl H1) as [T1 _].
      destruct (IH _ _ _ _ _ Hl H2) as [T2 R2].
      split; [congruence|]. intros x Hx.
      destruct (R2 x Hx) as [Hd|(Hk & d' & Hin & Hc)]; [now left|right].
      split; [exact Hk|]. exists d'. split; [now right|].
      intros Hc'. apply Hc.
      eapply closed_d_shape; [apply (wstep_shape _ _ W)|reflexivity|exact Hc'].
    + destruct (apply_directive_unloaded _ _ _ _ _ _ Hl H1) as [T1 R1].
      split; [exact T1|]. intros y [= <-].
      destruct (R1 x eq_refl) as [Hd|(Hk & Hc)]; [now left|right].
      split; [exact Hk|]. exists d. split; [now left|exact Hc].
Qed.

(** A pass over the directives while nothing is loaded. *)
Lemma apply_loop_unloaded ks : forall st r st',
  all_unloaded st -> incl ks (keys (plugin_data st)) ->
  apply_loop call_ok ks st = (r, st') ->
  trace st' = trace st /\
  forall x, r = Raised x ->
    x = DeniedPlugin \/ ((exists k, x = KeyError k) /\ ~ closed st).
Proof.
  induction ks as [|k ks IH]; intros st r st' Hu Hin H; simpl in H.
  - inversion H; subst. split; [reflexivity|discriminate].
  - assert (Hk : In k (keys (plugin_data st))) by (apply Hin; now left).
    apply dict_get_keys in Hk. destruct Hk as [e He].
    rewrite (bind_ok _ _ st e st) in H by (unfold getitem; rewrite He; reflexivity).
    assert (Hl : loaded e = false).
    { specialize (Hu k). unfold is_loaded in Hu. rewrite He in Hu. exact Hu. }
    destruct (bind_inv _ _ _ _ _ H) as [(u & st1 & H1 & H2)|(x & H1 & ->)].
    + pose proof (wstep_for_directives call_ok _ _ _ _ _ _ H1) as W.
      destruct (for_directives_unloaded _ _ _ _ _ _ Hl H1) as [T1 _].
      destruct (IH st1 r st') as [T2 R2]; auto.
      * intros k'. rewrite (loaded_map_is_loaded _ _ k' (wstep_loaded _ _ W)). apply Hu.
      * rewrite (shape_keys _ _ (wstep_shape _ _ W)).
        intros y Hy. apply Hin. now right.
      * split; [congruence|]. intros x Hx.
        destruct (R2 x Hx) as [Hd|(Hkx & Hc)]; [now left|right].
        split; [exact Hkx|]. intros Hc'. apply Hc.
        eapply closed_shape; [apply (wstep_shape _ _ W)|exact Hc'].
    + destruct (for_directives_unloaded _ _ _ _ _ _ Hl H1) as [T1 R1].
      split; [exact T1|]. intros y [= <-].
      destruct (R1 x eq_refl) as [Hd|(Hkx & d & Hdin & Hc)]; [now left|right].
      split; [exact Hkx|]. intros Hc'. apply Hc. eapply Hc'; eauto.
Qed.

End FirstPass.

(* ================================================================= *)
(** ** Service classes *)

(** C2.  The code at the failing input: two plugins [a] and [b] without
    directives that both declare the service class [db].  The run
    succeeds, and the [services] dictionary of the package has one key for
    each plugin name, with that plugin's module alone under it; it has no
    key [db]. *)
Lemma services_are_keyed_by_plugin_name :
  let files := [mkManifest "0.1.0" "a" None (Some "db") None None None;
                mkManifest "0.1.0" "b" None (Some "db") None None None] in
  let run := init (fun _ => true) (fun _ _ => true) files in
  fst run = Finished /\
  services (plugins_mod (snd run)) =
    Dict [("a", [PluginModule "a"]); ("b", [PluginModule "b"])] /\
  forall d, services (plugins_mod (snd run)) = Dict d -> dict_get "db" d = None.
Proof.
  split; [vm_compute; reflexivity|]. split; [vm_compute; reflexivity|].
  intros d H. vm_compute in H. injection H as <-. reflexivity.
Qed.

(** C3.  The code at the failing input: a manifest for [a] that declares
    no service class, and a plugin [b] that is to load after the providers
    of the service [a].  The entry registered for [a] has no service
    class, resolving [$a] raises a key error for ["service"] before it
    yields anything, and so does the run. *)
Lemma service_class_has_no_default :
  let files :=
    [mkManifest "0.1.0" "a" None None None None None;
     mkManifest "0.1.0" "b" None None None
       (Some [mkDirective "load-after" "$a" None None]) None] in
  (exists pd,
     _load_plugin_manifests files = Ok pd /\
     (exists e, dict_get "a" pd = Some e /\ service e = None) /\
     _resolve_plugin_name "$a" pd = Raise (KeyError "service")) /\
  fst (init (fun _ => true) (fun _ _ => true) files) = Aborted (KeyError "service").
Proof.
  split; [|vm_compute; reflexivity].
  eexists. split; [reflexivity|]. split; [|vm_compute; reflexivity].
  eexists. split; reflexivity.
Qed.

(* ================================================================= *)
(** * Further properties of the code *)

(** ** The scheduler loop comes to an end *)

Lemma cycles_calls t : Forall is_call t -> cycles t = 0.
Proof.
  induction 1 as [|ev t (k & j & m & ->) _ IH]; [reflexivity|exact IH].
Qed.

Section Termination.

Variable import_ok : string -> bool.
Variable call_ok : string -> string -> bool.

Lemma cycle_one_marker st r st' :
  wf (plugin_data st) ->
  cycle import_ok call_ok st = (r, st') ->
  exists t, trace st' = trace st ++ t /\ cycles t = 1 /\ shape st' = shape st.
Proof.
  intros Hwf H.
  destruct (cycle_summary _ _ _ _ _ Hwf H)
    as (r1 & st_b & calls & att & _ & _ & Tb & Fc & T' & Hs & _).
  exists (EvCycle :: calls ++ map EvImport att).
  split; [rewrite T', Tb, <- app_assoc; reflexivity|]. split; [|exact Hs].
  change (EvCycle :: calls ++ map EvImport att)
    with ([EvCycle] ++ calls ++ map EvImport att).
  rewrite !cycles_app, (cycles_calls _ Fc), cycles_imports. reflexivity.
Qed.

Lemma loop_cycles_le fuel : forall st out st',
  wf (plugin_data st) ->
  load_plugins_loop import_ok call_ok fuel st = (out, st') ->
  exists t, trace st' = trace st ++ t /\ cycles t <= fuel.
Proof.
  induction fuel as [|fuel IH]; intros st out st' Hwf H; simpl in H.
  - inversion H; subst. exists []. rewrite app_nil_r. split; [reflexivity|].
    unfold cycles; simpl. lia.
  - destruct (cycle import_ok call_ok st) as [r st1] eqn:Ec.
    destruct (cycle_one_marker _ _ _ Hwf Ec) as (t & Ht & Hc & Hs).
    assert (Done : forall o, (o, st1) = (out, st') ->
              exists t0, trace st' = trace st ++ t0 /\ cycles t0 <= S fuel).
    { intros o Eo. inversion Eo; subst. exists t. split; [exact Ht|lia]. }
    destruct r as [[loaded_any loaded_all]|x]; [|eapply Done; eauto].
    destruct loaded_all; [eapply Done; eauto|].
    destruct loaded_any; simpl in H; [|eapply Done; eauto].
    apply IH in H; [|eapply shape_wf; eauto].
    destruct H as (t2 & Ht2 & Hc2). exists (t ++ t2).
    split; [rewrite Ht2, Ht, <- app_assoc; reflexivity|].
    rewrite cycles_app. lia.
Qed.

(** X1.  The [while True] loop of [_load_plugins] always comes to an end,
    by success or by an exception, after at most one pass more than there
    are registered plugins. *)
Theorem load_plugins_terminates pd :
  wf pd ->
  fst (_load_plugins import_ok call_ok pd) <> Unfinished /\
  cycles (trace (snd (_load_plugins import_ok call_ok pd))) <= S (List.length pd).
Proof.
  intros Hwf. split; [apply load_plugins_total, Hwf|].
  destruct (_load_plugins import_ok call_ok pd) as [out st'] eqn:E.
  unfold _load_plugins in E.
  destruct (loop_cycles_le _ (initial_state pd) _ _ Hwf E) as (t & Ht & Hc).
  simpl in *. rewrite Ht. exact Hc.
Qed.

End Termination.

Lemma load_plugins_terminates_witness :
  let pd := register
              [mkEntry "a" "a" None [] [mkDirective "load-after" "b" None None] [] false false;
               mkEntry "b" "b" None [] [] [] false false] [] in
  fst (_load_plugins (fun _ => true) (fun _ _ => true) pd) <> Unfinished /\
  cycles (trace (snd (_load_plugins (fun _ => true) (fun _ _ => true) pd))) <= 3.
Proof.
  intros pd.
  apply (load_plugins_terminates (fun _ => true) (fun _ _ => true) pd).
  apply (register_fresh _ [] fresh_nil).
Defined.

(* ================================================================= *)
(** ** What directive evaluation can and cannot do *)

Section DirectivePass.

Variable call_ok : string -> string -> bool.

(** X2.  A pass over all load directives, whether it returns or raises,
    registers and removes no plugin, changes no name, service or directive
    (other than its ["executed"] flag), loads nothing, records nothing in
    the [plugins] package, never sets a ["can-load"] flag, and does
    nothing to the outside world but call methods. *)
Theorem directives_only_block st :
  let st' := snd (apply_load_directives call_ok st) in
  keys (plugin_data st') = keys (plugin_data st) /\
  shape st' = shape st /\
  (forall k, is_loaded k st' = is_loaded k st) /\
  (forall k, can_load_of k st' = true -> can_load_of k st = true) /\
  plugins_mod st' = plugins_mod st /\
  exists t, trace st' = trace st ++ t /\ Forall is_call t.
Proof.
  destruct (apply_load_directives call_ok st) as [r st'] eqn:E. simpl.
  destruct (wstep_apply_load_directives call_ok _ _ _ E) as [Hs Hl Hc Hp Ht].
  split; [apply (shape_keys _ _ Hs)|]. split; [exact Hs|].
  split; [intros k; apply loaded_map_is_loaded, Hl|].
  split; [exact Hc|]. split; [exact Hp|exact Ht].
Qed.

(** X3.  While no plugin is loaded, a pass over the load directives calls
    no method, and the only exceptions it can raise are the veto of
    [load-deny] and key errors; it raises no key error when every
    directive has a known kind, resolves to registered plugins, and has a
    method if it is [run-after-load]. *)
Theorem first_pass_raises_veto_or_key_error st :
  all_unloaded st ->
  let r := fst (apply_load_directives call_ok st) in
  let st' := snd (apply_load_directives call_ok st) in
  trace st' = trace st /\
  forall x, r = Raised x ->
    key_or_denied x /\ (closed st -> x = DeniedPlugin).
Proof.
  intros Hu. destruct (apply_load_directives call_ok st) as [r st'] eqn:E. simpl.
  unfold apply_load_directives in E.
  destruct (apply_loop_unloaded call_ok _ _ _ _ Hu (incl_refl _) E) as [Ht Hr].
  split; [exact Ht|]. intros x Hx.
  destruct (Hr x Hx) as [Hd|[Hk Hc]].
  - split; [now left|auto].
  - split; [now right|]. intros H. contradiction.
Qed.

End DirectivePass.

Lemma first_pass_raises_veto_or_key_error_witness :
  let st := initial_state
              (register
                 [mkEntry "a" "a" None [] [mkDirective "load-deny" "b" None None] [] false false;
                  mkEntry "b" "b" None [] [] [] false false] []) in
  trace (snd (apply_load_directives (fun _ _ => true) st)) = trace st /\
  forall x, fst (apply_load_directives (fun _ _ => true) st) = Raised x ->
    key_or_denied x /\ (closed st -> x = DeniedPlugin).
Proof.
  intros st.
  apply (first_pass_raises_veto_or_key_error (fun _ _ => true) st).
  intros k. apply fresh_is_loaded, register_fresh, fresh_nil.
Defined.

(* ================================================================= *)
(** ** The handlers on concrete references *)

Section ConcreteHandlers.

Variable call_ok : string -> string -> bool.

Lemma load_deny_concrete d e i st :
  is_wildcard (d_module d) = false ->
  _directive_load_deny d e i st =
  match dict_get (d_module d) (plugin_data st) with
  | None => (Raised (KeyError (d_module d)), st)
  | Some _ =>
      if String.eqb (d_module d) (name e) then (Ok tt, st)
      else (Raised DeniedPlugin, st)
  end.
Proof.
  intros Hw. unfold _directive_load_deny. rewrite (resolve_concrete _ _ Hw).
  simpl. unfold bind, getitem.
  destruct (dict_get (d_module d) (plugin_data st)) as [me|] eqn:E; [|reflexivity].
  destruct (String.eqb (d_module d) (name e)); [reflexivity|].
  rewrite E. reflexivity.
Qed.

(** X4.  A [load-before], [load-after] or [load-deny] directive whose
    target is a concrete name that is not registered raises a key error
    for that name and leaves the state as it is. *)
Theorem unknown_target_raises_key_error d e i st :
  d_directive d = "load-before" \/ d_directive d = "load-after" \/
  d_directive d = "load-deny" ->
  is_wildcard (d_module d) = false ->
  dict_get (d_module d) (plugin_data st) = None ->
  apply_directive call_ok d e i st = (Raised (KeyError (d_module d)), st).
Proof.
  intros [Hk|[Hk|Hk]] Hw Hn.
  - rewrite (apply_directive_load_before _ _ _ _ Hk), (load_before_concrete _ _ _ _ Hw), Hn.
    reflexivity.
  - rewrite (apply_directive_load_after _ _ _ _ Hk), (load_after_concrete _ _ _ _ Hw), Hn.
    reflexivity.
  - rewrite (apply_directive_load_deny _ _ _ _ Hk), (load_deny_concrete _ _ _ _ Hw), Hn.
    reflexivity.
Qed.

(** X5.  On registered plugins [A] and [B], the directive [load-before B]
    declared by [A] and the directive [load-after A] declared by [B] do
    the same thing to the state: both clear the ["can-load"] flag of [B]
    if [A] is not loaded, and nothing else. *)
Theorem load_before_is_load_after_reversed st A B eA eB dA dB i j :
  dict_get A (plugin_data st) = Some eA -> name eA = A ->
  dict_get B (plugin_data st) = Some eB -> name eB = B ->
  is_wildcard A = false -> is_wildcard B = false ->
  d_directive dA = "load-before" -> d_module dA = B ->
  d_directive dB = "load-after" -> d_module dB = A ->
  apply_directive call_ok dA eA i st = apply_directive call_ok dB eB j st /\
  apply_directive call_ok dA eA i st =
    (Ok tt,
     if loaded eA then st
     else set_plugin_data (dict_adjust (set_can_load false) B (plugin_data st)) st).
Proof.
  intros HA HnA HB HnB HwA HwB HkA HmA HkB HmB.
  rewrite (apply_directive_load_before _ _ _ _ HkA), (apply_directive_load_after _ _ _ _ HkB).
  rewrite load_before_concrete by (rewrite HmA; exact HwB).
  rewrite load_after_concrete by (rewrite HmB; exact HwA).
  rewrite HmA, HmB, HA, HB, HnB. destruct (loaded eA); auto.
Qed.

(** X6.  A [load-deny] directive on a concrete registered name vetoes the
    run unless the name is the declaring plugin's own, in which case it
    does nothing; in both cases the state is left as it is. *)
Theorem load_deny_vetoes_other_plugins d e i st me :
  d_directive d = "load-deny" ->
  is_wildcard (d_module d) = false ->
  dict_get (d_module d) (plugin_data st) = Some me ->
  apply_directive call_ok d e i st =
    if String.eqb (d_module d) (name e) then (Ok tt, st)
    else (Raised DeniedPlugin, st).
Proof.
  intros Hk Hw Hm.
  rewrite (apply_directive_load_deny _ _ _ _ Hk), (load_deny_concrete _ _ _ _ Hw), Hm.
  reflexivity.
Qed.

End ConcreteHandlers.

Definition example_entry (n : string) (ds : list directive) : plugin_entry :=
  mkEntry n n None [] ds [] false false.

Lemma unknown_target_raises_key_error_witness :
  let d := mkDirective "load-after" "ghost" None None in
  let e := example_entry "a" [d] in
  let st := initial_state (register [e] []) in
  apply_directive (fun _ _ => true) d e 0 st = (Raised (KeyError "ghost"), st).
Proof.
  intros d e st.
  apply (unknown_target_raises_key_error (fun _ _ => true) d e 0 st).
  - right. left. reflexivity.
  - reflexivity.
  - reflexivity.
Defined.

Lemma load_before_is_load_after_reversed_witness :
  let dA := mkDirective "load-before" "b" None None in
  let dB := mkDirective "load-after" "a" None None in
  let eA := example_entry "a" [dA] in
  let eB := example_entry "b" [] in
  let st := initial_state (register [eA; eB] []) in
  apply_directive (fun _ _ => true) dA eA 0 st =
  apply_directive (fun _ _ => true) dB eB 0 st.
Proof.
  intros dA dB eA eB st.
  apply (load_before_is_load_after_reversed (fun _ _ => true) st "a" "b" eA eB dA dB 0 0);
    reflexivity.
Defined.

Lemma load_deny_vetoes_other_plugins_witness :
  let d := mkDirective "load-deny" "b" None None in
  let e := example_entry "a" [d] in
  let st := initial_state (register [e; example_entry "b" []] []) in
  apply_directive (fun _ _ => true) d e 0 st = (Raised DeniedPlugin, st).
Proof.
  intros d e st.
  apply (load_deny_vetoes_other_plugins (fun _ _ => true) d e 0 st (example_entry "b" []));
    reflexivity.
Defined.

(* ================================================================= *)
(** ** Service references *)

(** How a generator ends: by stopping or by raising. *)
Fixpoint gen_end (g : gen) : option exn :=
  match g with
  | Stop => None
  | Raise x => Some x
  | Yield _ rest => gen_end rest
  end.

(** The entry declares the service class [s]. *)
Definition provides (s : string) (e : plugin_entry) : bool :=
  match service e with
  | Some s' => String.eqb s' s
  | None => false
  end.

Lemma resolve_service_all s l :
  Forall (fun e => service e <> None) l ->
  yields (resolve_service s l) = map name (filter (provides s) l) /\
  gen_end (resolve_service s l) = None.
Proof.
  induction 1 as [|e l He _ [IH1 IH2]]; simpl; [auto|].
  unfold provides at 1. destruct (service e) as [s'|]; [|contradiction].
  destruct (String.eqb s' s); simpl; [rewrite IH1|]; auto.
Qed.

(** X7.  When every registered plugin declares a service class, a
    reference [$s] resolves, without raising, to exactly the plugins whose
    service class is [s], in registry order; all of them are keys of the
    registry. *)
Theorem wildcard_resolves_to_providers pd s :
  wf pd ->
  (forall k e, dict_get k pd = Some e -> service e <> None) ->
  let g := _resolve_plugin_name (String "$"%char s) pd in
  yields g = map fst (filter (fun kv => provides s (snd kv)) pd) /\
  gen_end g = None /\
  gen_ok (keys pd) g.
Proof.
  intros [Hnd Hn] Hs. simpl.
  assert (Hall : Forall (fun e => service e <> None) (values pd)).
  { apply Forall_forall. intros e He. unfold values in He.
    apply in_map_iff in He. destruct He as ([k e'] & <- & Hin). simpl.
    eapply Hs. apply In_dict_get; eauto. }
  destruct (resolve_service_all s _ Hall) as [Hy He].
  assert (Hnames : map name (filter (provides s) (values pd)) =
                   map fst (filter (fun kv => provides s (snd kv)) pd)).
  { assert (Hk : forall k e, In (k, e) pd -> name e = k)
      by (intros k e Hin; apply Hn, In_dict_get; auto).
    clear - Hk. unfold values. induction pd as [|[k e] pd IH]; simpl; [reflexivity|].
    destruct (provides s e); simpl.
    - rewrite (Hk k e (or_introl eq_refl)), IH; [reflexivity|].
      intros k' e' H. apply Hk. now right.
    - apply IH. intros k' e' H. apply Hk. now right. }
  split; [rewrite Hy; exact Hnames|]. split; [exact He|].
  assert (Hsub : incl (yields (resolve_service s (values pd))) (keys pd)).
  { rewrite Hy, Hnames. intros k Hk. apply in_map_iff in Hk.
    destruct Hk as (kv & <- & Hin). apply filter_In in Hin.
    unfold keys. apply in_map, Hin. }
  revert He Hsub. generalize (resolve_service s (values pd)).
  induction g as [|x|n g IH]; simpl; intros He Hsub; [exact I|discriminate|].
  split; [apply Hsub; now left|]. apply IH; [exact He|].
  intros y Hy'. apply Hsub. now right.
Qed.

(** X8.  Wildcard resolution reads the service class of every plugin in
    turn: at the first plugin without one it raises a key error for
    ["service"], after yielding the matching plugins registered before
    it, whatever name is looked for. *)
Theorem wildcard_fails_on_missing_service l1 k e l2 s :
  Forall (fun kv => service (snd kv) <> None) l1 ->
  service e = None ->
  let g := _resolve_plugin_name (String "$"%char s) (l1 ++ (k, e) :: l2) in
  yields g = map (fun kv => name (snd kv)) (filter (fun kv => provides s (snd kv)) l1) /\
  gen_end g = Some (KeyError "service").
Proof.
  intros Hl He. simpl. unfold values. rewrite map_app. simpl.
  induction Hl as [|[k1 e1] l1 H1 _ IH]; simpl.
  - rewrite He. auto.
  - simpl in H1. unfold provides at 1. destruct (service e1) as [s'|]; [|contradiction].
    destruct IH as [IH1 IH2].
    destruct (String.eqb s' s); simpl; [rewrite IH1|]; auto.
Qed.

Lemma wildcard_resolves_to_providers_witness :
  let pd := register
              [mkEntry "a" "a" (Some "svc") [] [] [] false false;
               mkEntry "b" "b" (Some "other") [] [] [] false false;
               mkEntry "c" "c" (Some "svc") [] [] [] false false] [] in
  yields (_resolve_plugin_name "$svc" pd) = ["a"; "c"].
Proof.
  intros pd.
  apply (wildcard_resolves_to_providers pd "svc").
  - apply (register_fresh _ [] fresh_nil).
  - intros k e H. apply dict_get_In in H. simpl in H.
    destruct H as [H|[H|[H|[]]]]; inversion H; discriminate.
Defined.

Lemma wildcard_fails_on_missing_service_witness :
  gen_end (_resolve_plugin_name "$svc"
             [("a", mkEntry "a" "a" (Some "svc") [] [] [] false false);
              ("b", mkEntry "b" "b" None [] [] [] false false)])
  = Some (KeyError "service").
Proof.
  apply (wildcard_fails_on_missing_service
           [("a", mkEntry "a" "a" (Some "svc") [] [] [] false false)]
           "b" (mkEntry "b" "b" None [] [] [] false false) [] "svc").
  - constructor; [discriminate|constructor].
  - reflexivity.
Defined.

(* ================================================================= *)
(** ** Manifests and registration *)

(** The entry that registration stores for a manifest. *)
Definition registered (m : plugin_entry) : plugin_entry :=
  set_can_load false (set_loaded false m).

Lemma find_app {X} (p : X -> bool) (l1 l2 : list X) :
  find p (l1 ++ l2) = match find p l1 with Some x => Some x | None => find p l2 end.
Proof.
  induction l1 as [|a l1 IH]; simpl; [reflexivity|].
  destruct (p a); [reflexivity|exact IH].
Qed.

Lemma register_lookup_from manifests : forall pd k,
  dict_get k (register manifests pd) =
  match find (fun m => String.eqb (name m) k) (rev manifests) with
  | Some m => Some (registered m)
  | None => dict_get k pd
  end.
Proof.
  induction manifests as [|m ms IH]; intros pd k; simpl; [reflexivity|].
  rewrite IH, find_app, dict_get_set. simpl.
  destruct (find (fun m0 => String.eqb (name m0) k) (rev ms)); [reflexivity|].
  destruct (String.eqb (name m) k); reflexivity.
Qed.

(** X9.  After registration, a name is looked up to the last manifest
    that carries it, with both flags false; names that no manifest
    carries are not registered.  Keys are unique and every entry is
    stored under its own name. *)
Theorem register_last_manifest_wins manifests k :
  dict_get k (register manifests []) =
    option_map registered
      (find (fun m => String.eqb (name m) k) (rev manifests)) /\
  wf (register manifests []) /\
  (In k (keys (register manifests [])) <-> In k (map name manifests)).
Proof.
  assert (E : dict_get k (register manifests []) =
              option_map registered
                (find (fun m => String.eqb (name m) k) (rev manifests))).
  { rewrite register_lookup_from.
    destruct (find (fun m => String.eqb (name m) k) (rev manifests)); reflexivity. }
  split; [exact E|]. split; [apply (register_fresh _ [] fresh_nil)|].
  rewrite dict_get_keys, E. split.
  - intros [v Hv].
    destruct (find (fun m => String.eqb (name m) k) (rev manifests)) as [m|] eqn:F;
      [|discriminate].
    apply find_some in F. destruct F as [Hin Hk].
    apply String.eqb_eq in Hk. subst k. apply in_map, in_rev, Hin.
  - intros Hin. apply in_map_iff in Hin. destruct Hin as (m & Hm & Hin).
    destruct (find (fun m0 => String.eqb (name m0) k) (rev manifests)) as [m'|] eqn:F.
    + simpl. eauto.
    + exfalso. apply in_rev in Hin.
      pose proof (find_none _ _ F m Hin) as Hf. simpl in Hf.
      subst k. rewrite String.eqb_refl in Hf. discriminate.
Qed.

(** The first manifest whose format is not supported. *)
Definition unsupported (f : manifest) : bool :=
  negb (String.eqb (m_format f) "0.1.0").

(** X10.  Loading the manifests fails with a key error for the format of
    the first manifest whose format is not ["0.1.0"], and then registers
    nothing; otherwise it registers the normalised manifests in order. *)
Theorem load_plugin_manifests_checks_formats files :
  _load_plugin_manifests files =
  match find unsupported files with
  | Some f => Raised (KeyError (m_format f))
  | None => Ok (register (map _parse_apm_json_0_1_0 files) [])
  end.
Proof.
  unfold _load_plugin_manifests.
  assert (H : parse_all files =
              match find unsupported files with
              | Some f => Raised (KeyError (m_format f))
              | None => Ok (map _parse_apm_json_0_1_0 files)
              end).
  { induction files as [|f files IH]; simpl; [reflexivity|].
    unfold _apm_handler, _apm_json_handlers, unsupported.
    destruct (String.eqb (m_format f) "0.1.0"); simpl; [|reflexivity].
    rewrite IH. fold unsupported.
    destruct (find unsupported files); reflexivity. }
  rewrite H. destruct (find unsupported files); reflexivity.
Qed.

Lemma first_without_service (pd : registry) k e :
  In (k, e) pd -> service e = None ->
  exists l1 k1 e1 l2,
    pd = l1 ++ (k1, e1) :: l2 /\
    Forall (fun kv => service (snd kv) <> None) l1 /\ service e1 = None.
Proof.
  induction pd as [|[k0 e0] pd IH]; intros Hin He; [destruct Hin|].
  destruct (service e0) as [s0|] eqn:E0.
  - destruct Hin as [Hin|Hin]; [inversion Hin; subst; congruence|].
    destruct (IH Hin He) as (l1 & k1 & e1 & l2 & -> & Hl & H1).
    exists ((k0, e0) :: l1), k1, e1, l2. split; [reflexivity|].
    split; [|exact H1]. constructor; [simpl; congruence|exact Hl].
  - exists [], k0, e0, pd. auto.
Qed.

(** X11.  The normaliser gives the service class no default.  So when the
    manifests that carry some name all lack a service class, every
    wildcard reference, for whatever service, raises a key error for
    ["service"] on the registry they are loaded into. *)
Theorem manifest_without_service_breaks_wildcards files pd f s :
  _load_plugin_manifests files = Ok pd ->
  In f files -> 
  (forall f', In f' files -> m_name f' = m_name f -> m_service f' = None) ->
  service (_parse_apm_json_0_1_0 f) = None /\
  gen_end (_resolve_plugin_name (String "$"%char s) pd) = Some (KeyError "service").
Proof.
  intros Hload Hin Hnone.
  split; [simpl; apply Hnone; auto|].
  rewrite load_plugin_manifests_checks_formats in Hload.
  destruct (find unsupported files); [discriminate|].
  injection Hload as <-.
  destruct (register_last_manifest_wins (map _parse_apm_json_0_1_0 files) (m_name f))
    as (Hget & _ & Hkeys).
  assert (Hk : In (m_name f) (map name (map _parse_apm_json_0_1_0 files))).
  { rewrite map_map. simpl. apply in_map_iff. eauto. }
  apply Hkeys, dict_get_keys in Hk. destruct Hk as [e He].
  rewrite He in Hget.
  destruct (find (fun m => String.eqb (name m) (m_name f))
              (rev (map _parse_apm_json_0_1_0 files))) as [m|] eqn:F; [|discriminate].
  simpl in Hget. injection Hget as ->.
  apply find_some in F. destruct F as [Hm Hname].
  apply in_rev, in_map_iff in Hm. destruct Hm as (f' & <- & Hf').
  apply String.eqb_eq in Hname. simpl in Hname.
  assert (Hs : service (registered (_parse_apm_json_0_1_0 f')) = None)
    by (simpl; apply Hnone; auto).
  apply dict_get_In in He.
  destruct (first_without_service _ _ _ He Hs) as (l1 & k1 & e1 & l2 & -> & Hl & H1).
  apply (wildcard_fails_on_missing_service l1 k1 e1 l2 s Hl H1).
Qed.

Lemma manifest_without_service_breaks_wildcards_witness :
  let f := mkManifest "0.1.0" "a" None None None None None in
  gen_end (_resolve_plugin_name "$a" (register [_parse_apm_json_0_1_0 f] []))
  = Some (KeyError "service").
Proof.
  intros f.
  apply (manifest_without_service_breaks_wildcards [f] _ f "a").
  - reflexivity.
  - now left.
  - intros f' [<-|[]] _. reflexivity.
Defined.
